(** * myCron: a minute-granularity cron scheduler (src/myCron.ts)

    A shallow embedding of the TypeScript module and the properties of its
    specification.

    Modelling conventions.
    - A JavaScript [number] that holds an integer is a [Z]; the embedding is
      exact for the safe integers (of magnitude below 2^53), which covers
      every bound used by the module (0 .. 2099), and for arrays within the
      length an array can have (below 2^32).  Where a statement ranges over
      numbers that the module does not fix, these bounds are hypotheses
      ([MAX_SAFE_INTEGER], [MAX_ARRAY_LENGTH]).  [NaN] and [undefined] are
      [None].
    - A JavaScript string is a [string] of 8-bit code units; the white space
      of [trim] is the ECMAScript white space among those code units.
    - The module-level variables [tasks] and [runner] are the fields of an
      explicit [State]; task objects live in a store and the registry holds
      references, because the deferred executions of [tick] mutate the task
      object they captured.
    - An exception is the [Throw] constructor of [result].
    - A callback is what its call does as the scheduler sees it (it
      returns, returns a promise, or throws); a callback that itself calls
      [addTask] or [removeTask] while it runs is outside the model. *)

From Stdlib Require Import ZArith Lia String Ascii List Bool.
From Stdlib Require Import Sorting.Sorted Permutation.
From Stdlib Require Import DecimalString DecimalNat DecimalFacts.
From Equations Require Import Equations.
From stdpp Require Import base list strings.
Import ListNotations.
Open Scope string_scope.
Open Scope list_scope.
Open Scope Z_scope.

(** ** JavaScript strings *)

Module Js.

Definition code (c : ascii) : N := N_of_ascii c.

(** [[0-9]] *)
Definition is_digit (c : ascii) : bool :=
  ((48 <=? code c) && (code c <=? 57))%N.

(** [[0-9-]] *)
Definition is_digit_or_hyphen (c : ascii) : bool :=
  is_digit c || Ascii.eqb c "-".

(** White space as [String.prototype.trim] sees it: TAB, LF, VT, FF, CR,
    SP and NBSP. *)
Definition is_white (c : ascii) : bool :=
  ((9 <=? code c) && (code c <=? 13) || (code c =? 32) || (code c =? 160))%N.

(** [s.replace(/ +/g, ' ')]: every maximal run of spaces becomes one space. *)
Fixpoint collapse_spaces (s : string) : string :=
  match s with
  | EmptyString => EmptyString
  | String c s' =>
      if Ascii.eqb c " " then
        match s' with
        | String c' _ =>
            if Ascii.eqb c' " " then collapse_spaces s'
            else String " " (collapse_spaces s')
        | EmptyString => String " " EmptyString
        end
      else String c (collapse_spaces s')
  end.

Fixpoint trimStart (s : string) : string :=
  match s with
  | EmptyString => EmptyString
  | String c s' => if is_white c then trimStart s' else s
  end.

Fixpoint trimEnd (s : string) : string :=
  match s with
  | EmptyString => EmptyString
  | String c s' =>
      match trimEnd s' with
      | EmptyString => if is_white c then EmptyString else String c EmptyString
      | t => String c t
      end
  end.

(** [s.trim()] *)
Definition trim (s : string) : string := trimEnd (trimStart s).

(** [s.split(sep)] for a separator of one character: the pieces between
    the separators, empty pieces included; the empty string gives [[""]]. *)
Fixpoint split (sep : ascii) (s : string) : list string :=
  match s with
  | EmptyString => [EmptyString]
  | String c s' =>
      if Ascii.eqb c sep then EmptyString :: split sep s'
      else match split sep s' with
           | p :: ps => String c p :: ps
           | [] => [String c EmptyString]
           end
  end.

(** Every character of [s] satisfies [p]. *)
Fixpoint all_chars (p : ascii -> bool) (s : string) : bool :=
  match s with
  | EmptyString => true
  | String c s' => p c && all_chars p s'
  end.

(** [s.includes(c)] for a character [c]. *)
Fixpoint has_char (c : ascii) (s : string) : bool :=
  match s with
  | EmptyString => false
  | String c' s' => Ascii.eqb c' c || has_char c s'
  end.

(** [arr[i]]: [undefined] outside the array. *)
Definition index {A : Type} (arr : list A) (i : Z) : option A :=
  if i <? 0 then None else arr !! Z.to_nat i.

(** *** Regular expressions

    The three patterns of the module are anchored at both ends and use only
    character classes, concatenation and [+]; [test] decides a whole-string
    match by Brzozowski derivatives. *)

Inductive regex : Type :=
| Void : regex
| Eps : regex
| Class (p : ascii -> bool) : regex
| Seq (r1 r2 : regex) : regex
| Alt (r1 r2 : regex) : regex
| Star (r : regex) : regex.

(** [r+] *)
Definition Plus (r : regex) : regex := Seq r (Star r).

Fixpoint nullable (r : regex) : bool :=
  match r with
  | Void => false
  | Eps => true
  | Class _ => false
  | Seq r1 r2 => nullable r1 && nullable r2
  | Alt r1 r2 => nullable r1 || nullable r2
  | Star _ => true
  end.

Fixpoint deriv (c : ascii) (r : regex) : regex :=
  match r with
  | Void => Void
  | Eps => Void
  | Class p => if p c then Eps else Void
  | Seq r1 r2 =>
      if nullable r1 then Alt (Seq (deriv c r1) r2) (deriv c r2)
      else Seq (deriv c r1) r2
  | Alt r1 r2 => Alt (deriv c r1) (deriv c r2)
  | Star r1 => Seq (deriv c r1) (Star r1)
  end.

(** [/^r$/.test(s)] *)
Fixpoint test (r : regex) (s : string) : bool :=
  match s with
  | EmptyString => nullable r
  | String c s' => test (deriv c r) s'
  end.

(** The language of a pattern, for reasoning about [test]. *)
Inductive Matches : regex -> string -> Prop :=
| MEps : Matches Eps EmptyString
| MClass p c : p c = true -> Matches (Class p) (String c EmptyString)
| MSeq r1 r2 s1 s2 :
    Matches r1 s1 -> Matches r2 s2 -> Matches (Seq r1 r2) (s1 +:+ s2)
| MAltL r1 r2 s : Matches r1 s -> Matches (Alt r1 r2) s
| MAltR r1 r2 s : Matches r2 s -> Matches (Alt r1 r2) s
| MStar0 r : Matches (Star r) EmptyString
| MStarS r s1 s2 :
    Matches r s1 -> Matches (Star r) s2 -> Matches (Star r) (s1 +:+ s2).

(** *** Numbers in strings *)

Definition digit_val (c : ascii) : Z := Z.of_N (code c) - 48.

(** The value of the longest prefix of decimal digits, [acc] being the
    value of the digits already read. *)
Fixpoint digits_prefix (acc : Z) (s : string) : Z :=
  match s with
  | EmptyString => acc
  | String c s' =>
      if is_digit c then digits_prefix (10 * acc + digit_val c) s' else acc
  end.

(** [parseInt(s, 10)] on a string that starts with neither white space nor
    a sign (the module applies it to strings of digits only): the value of
    the leading digits, [NaN] when there is none or [s] is [undefined].
    The value is the one the code computes when it is a safe integer
    (below 2^53); beyond, the code's value is rounded. *)
Definition parseInt (s : option string) : option Z :=
  match s with
  | Some (String c s') =>
      if is_digit c then Some (digits_prefix 0 (String c s')) else None
  | _ => None
  end.

(** [String(n)] for a non-negative integer. *)
Definition decimal (n : Z) : string :=
  NilEmpty.string_of_uint (Nat.to_uint (Z.to_nat n)).

(** *** Arrays of numbers *)

(** [[...new Set(l)]]: the first occurrence of every value, in order. *)
Fixpoint set_from (seen l : list Z) : list Z :=
  match l with
  | [] => []
  | x :: l' =>
      if existsb (Z.eqb x) seen then set_from seen l'
      else x :: set_from (x :: seen) l'
  end.

Definition uniq (l : list Z) : list Z := set_from [] l.

(** [l.sort(cmp)]: the sort is stable, and for a consistent comparator the
    stable sorted permutation is unique; insertion from the right computes
    it. *)
Fixpoint insert_sorted (cmp : Z -> Z -> Z) (x : Z) (l : list Z) : list Z :=
  match l with
  | [] => [x]
  | y :: l' =>
      if cmp x y <=? 0 then x :: y :: l' else y :: insert_sorted cmp x l'
  end.

Definition sort (cmp : Z -> Z -> Z) (l : list Z) : list Z :=
  fold_right (insert_sorted cmp) [] l.

(** [l.includes(v)] *)
Definition includes (l : list Z) (v : Z) : bool := existsb (Z.eqb v) l.

(** The values pushed by [for (let i = lo; i <= hi; i++) push(i)], for
    safe integers [lo] and [hi] (beyond 2^53 the code's [i++] no longer
    counts) and a range that an array can hold. *)
Fixpoint count_from (n : nat) (i : Z) : list Z :=
  match n with
  | O => []
  | S n' => i :: count_from n' (i + 1)
  end.

Definition for_range (lo hi : Z) : list Z :=
  count_from (Z.to_nat (hi - lo + 1)) lo.

End Js.

(** ** Errors and results *)

(** A JavaScript [Error] object: its [name] and its [message]. *)
Record Error : Type := mkError { err_name : string; message : string }.

(** [new Error(msg)] *)
Definition new_Error (msg : string) : Error := mkError "Error" msg.

Inductive result (A : Type) : Type :=
| Ok (a : A) : result A
| Throw (e : Error) : result A.
Arguments Ok {A} a.
Arguments Throw {A} e.

#[global] Instance result_bind : MBind result :=
  fun A B k m =>
    match m with
    | Ok a => k a
    | Throw e => Throw e
    end.

(** ** The data of the module *)

(** What the clock says when the code reads it ([new Date()]). *)
Record Date : Type := mkDate {
  getFullYear : Z;
  getMonth : Z;     (* 0 .. 11 *)
  getDate : Z;      (* 1 .. 31 *)
  getDay : Z;       (* 0 .. 6, Sunday is 0 *)
  getHours : Z;
  getMinutes : Z;
  getSeconds : Z
}.

(** What one call of a task's callback does, as far as the scheduler can
    see: it returns a value that is no promise, it returns a promise (that
    is rejected with [Some err], or not rejected), or it throws.  The
    callback is taken not to call the module itself: the registry is the
    same after the call as before it. *)
Inductive Outcome : Type :=
| Returns : Outcome
| ReturnsPromise (rejection : option string) : Outcome
| Throws (err : string) : Outcome.

Module Task.
Record t : Type := mk {
  name : string;
  expression : string;
  callBack : unit -> Outcome;
  comment : option string;
  maxRuns : option Z
}.
End Task.

Module TaskInfo.
Record t : Type := mk {
  name : string;
  expression : string;
  comment : string;
  lastRun : option Date;
  countRuns : Z;
  maxRuns : option Z
}.
End TaskInfo.

Module StoredTask.
Record t : Type := mk {
  name : string;
  expression : string;
  callBack : unit -> Outcome;
  comment : string;
  maxRuns : option Z;
  lastRun : option Date;
  countRuns : Z;
  min : list Z;
  hour : list Z;
  day : list Z;
  month : list Z;
  weekday : list Z;
  year : option (list Z)
}.

(** [task.lastRun = d; task.countRuns++] *)
Definition ran (d : Date) (task : t) : t :=
  mk (name task) (expression task) (callBack task) (comment task)
     (maxRuns task) (Some d) (countRuns task + 1)
     (min task) (hour task) (day task) (month task) (weekday task)
     (year task).
End StoredTask.

(** A pending [setTimeout]: its delay in milliseconds, and whether
    [clearTimeout] has cancelled it. *)
Record Timeout : Type := mkTimeout { delay : Z; cleared : bool }.

Inductive Log : Type :=
| LogInfo (msg : string) : Log
| LogError (msg : string) : Log.

(** A task object is a cell of the store; [ref] is its address. *)
Abbreviation ref := nat.

(** The module-level state: the task objects allocated so far, the array
    [tasks] of the registered ones, the variable [runner] and what was
    written to the console. *)
Record State : Type := mkState {
  heap : list StoredTask.t;
  tasks : list ref;
  runner : option Timeout;
  console : list Log
}.

Definition initial : State := mkState [] [] None [].

Definition set_tasks (l : list ref) (st : State) : State :=
  mkState (heap st) l (runner st) (console st).

Definition set_runner (r : option Timeout) (st : State) : State :=
  mkState (heap st) (tasks st) r (console st).

Definition store (o : StoredTask.t) (r : ref) (st : State) : State :=
  mkState (<[r := o]> (heap st)) (tasks st) (runner st) (console st).

Definition log (l : list Log) (st : State) : State :=
  mkState (heap st) (tasks st) (runner st) (console st ++ l).

(** [tasks.push(o)] for a new object [o]. *)
Definition push (o : StoredTask.t) (st : State) : State :=
  mkState (heap st ++ [o]) (tasks st ++ [length (heap st)])
          (runner st) (console st).

(** ** The field parser *)

(** [/^[0-9]+$/] *)
Definition re_single : Js.regex := Js.Plus (Js.Class Js.is_digit).

(** [/^[0-9]+-[0-9]+$/] *)
Definition re_range : Js.regex :=
  Js.Seq (Js.Plus (Js.Class Js.is_digit))
    (Js.Seq (Js.Class (Ascii.eqb "-")) (Js.Plus (Js.Class Js.is_digit))).

(** [/^[0-9-]+(,([0-9-]+))+$/] *)
Definition re_list : Js.regex :=
  Js.Seq (Js.Plus (Js.Class Js.is_digit_or_hyphen))
    (Js.Plus (Js.Seq (Js.Class (Ascii.eqb ","))
                     (Js.Plus (Js.Class Js.is_digit_or_hyphen)))).

(** [mn >= min && mx <= max] and the like on numbers that may be [NaN]:
    a comparison with [NaN] is false. *)
Definition ge_num (a : option Z) (b : Z) : bool :=
  match a with Some x => b <=? x | None => false end.

Definition le_num (a : option Z) (b : Z) : bool :=
  match a with Some x => x <=? b | None => false end.

Definition gt_num (a b : option Z) : bool :=
  match a, b with Some x, Some y => y <? x | _, _ => false end.

(** The callback of [arr.every] in the list case, run over [arr] from the
    state [retVal]: a term that parses appends its values, a term that
    throws or gives [null] stops the iteration with [false].  [parse] is
    the recursive call; [None] is a recursive call that ran out of fuel. *)
Fixpoint every_term (parse : string -> option (result (option (list Z))))
    (arr : list string) (retVal : list Z) : option (list Z * bool) :=
  match arr with
  | [] => Some (retVal, true)
  | value :: rest =>
      match parse value with
      | None => None
      | Some (Throw _) => Some (retVal, false)
      | Some (Ok None) => Some (retVal, false)
      | Some (Ok (Some values)) => every_term parse rest (retVal ++ values)
      end
  end.

(** The first three [if] statements of [parseTimeExpression], which do not
    recurse.  Each takes the variables [(retVal, ok)] as the statements
    before it left them and gives them as it leaves them. *)

(** [if (timeExpression === '*') { ... }] *)
Definition wildcard_form (timeExpression : string) (min max : Z)
    (vars : list Z * bool) : list Z * bool :=
  let '(retVal, ok) := vars in
  if String.eqb timeExpression "*"
  then (retVal ++ Js.for_range min max, true)
  else (retVal, ok).

(** [if (!ok && /^[0-9]+$/.test(timeExpression)) { ... }] *)
Definition single_form (timeExpression : string) (min max : Z)
    (vars : list Z * bool) : list Z * bool :=
  let '(retVal, ok) := vars in
  if negb ok && Js.test re_single timeExpression then
    let val := Js.parseInt (Some timeExpression) in
    if ge_num val min && le_num val max
    then (retVal ++ from_option (fun v => [v]) [] val, true)
    else (retVal, ok)
  else (retVal, ok).

(** [if (!ok && /^[0-9]+-[0-9]+$/.test(timeExpression)) { ... }] *)
Definition range_form (timeExpression : string) (min max : Z)
    (vars : list Z * bool) : list Z * bool :=
  let '(retVal, ok) := vars in
  if negb ok && Js.test re_range timeExpression then
    let arr := Js.split "-" timeExpression in
    let mn := Js.parseInt (Js.index arr 0) in
    let mx := Js.parseInt (Js.index arr 1) in
    if ge_num mn min && le_num mx max && gt_num mx mn
    then (retVal ++ from_option
            (fun lo => from_option (Js.for_range lo) [] mx) [] mn, true)
    else (retVal, ok)
  else (retVal, ok).

Definition simple_forms (timeExpression : string) (min max : Z)
    : list Z * bool :=
  range_form timeExpression min max
    (single_form timeExpression min max
       (wildcard_form timeExpression min max ([], false))).

(** [parseTimeExpression], the recursion bounded by [fuel]; [None] is
    fuel exhausted. *)
Fixpoint parseTimeExpression_fuel (fuel : nat) (timeExpression : string)
    (min max : Z) : option (result (option (list Z))) :=
  match fuel with
  | O => None
  | S fuel' =>
      let '(retVal, ok) := simple_forms timeExpression min max in
      let step :=
        if negb ok && Js.test re_list timeExpression then
          let arr := Js.split "," timeExpression in
          every_term
            (fun value => parseTimeExpression_fuel fuel' value min max)
            arr retVal
        else Some (retVal, ok) in
      match step with
      | None => None
      | Some (retVal, ok) =>
          if ok then
            Some (Ok (Some (Js.sort (fun a b => a - b) (Js.uniq retVal))))
          else
            Some (Throw (new_Error ("Invalid expression: " +:+ timeExpression)))
      end
  end.

(** A list term has no comma, so the recursion never goes deeper than two
    calls (lemma [parseTimeExpression_fuel_enough]); the last branch is
    never taken. *)
Definition parseTimeExpression (timeExpression : string) (min max : Z)
    : result (option (list Z)) :=
  match parseTimeExpression_fuel 2 timeExpression min max with
  | Some r => r
  | None => Throw (new_Error "Maximum call stack size exceeded")
  end.

(** ** Membership *)

(** [value - arr[midIdx]], [NaN] when the index is outside the array. *)
Definition testResult_of (arr : list Z) (value midIdx : Z) : option Z :=
  (fun x => value - x) <$> Js.index arr midIdx.

(** The [while] loop of [existsInArray], from the window
    [minIdx .. maxIdx]; its value is what the function returns. *)
Equations? search_loop (arr : list Z) (value minIdx maxIdx : Z) : bool
  by wf (Z.to_nat (maxIdx - minIdx + 1)) lt :=
search_loop arr value minIdx maxIdx with Z_le_dec minIdx maxIdx := {
  | right _ => false
  | left Hle =>
      let midIdx := (minIdx + maxIdx) / 2 in
      match testResult_of arr value midIdx with
      | Some testResult =>
          if testResult <? 0 then
            search_loop arr value minIdx (midIdx - 1)
          else if 0 <? testResult then
            search_loop arr value (midIdx + 1) maxIdx
          else true
      | None => false
      end }.
Proof.
  all: subst midIdx;
    pose proof (Z.div_mod (minIdx + maxIdx) 2 ltac:(lia));
    pose proof (Z.mod_pos_bound (minIdx + maxIdx) 2 ltac:(lia)); lia.
Qed.

Definition existsInArray (arr : list Z) (value : Z) : bool :=
  if Z.of_nat (length arr) <? 10 then Js.includes arr value
  else if gt_num (Some value) (Js.index arr 0)
          || gt_num (Js.index arr (Z.of_nat (length arr) - 1)) (Some value)
  then false
  else search_loop arr value 0 (Z.of_nat (length arr) - 1).

(** ** The timer *)

(** [stop]: the pending timeout, if any, is cancelled; the variable
    [runner] keeps pointing at it. *)
Definition stop (st : State) : State :=
  match runner st with
  | Some t => set_runner (Some (mkTimeout (delay t) true)) st
  | None => st
  end.

(** [start]: a wake at the next minute boundary, [d] being the clock. *)
Definition start (d : Date) (st : State) : State :=
  set_runner (Some (mkTimeout ((60 - getSeconds d) * 1000) false)) (stop st).

(** ** The registry *)

(** The [try] block of [addTask] on the fields [exp]: the object to store,
    or the exception that leaves the block.  The properties are evaluated
    in source order, so the first field that fails decides the exception.
    [exp[i]] is read only below [exp.length], so it is never [undefined]
    and the default of [Js.index] is not used. *)
Definition compile (task : Task.t) (exp : list string)
    : result StoredTask.t :=
  if (6 <? Z.of_nat (length exp)) || (Z.of_nat (length exp) <? 5) then
    Throw (new_Error "Invalid expression")
  else
    min ← parseTimeExpression (default "" (Js.index exp 0)) 0 59;
    hour ← parseTimeExpression (default "" (Js.index exp 1)) 0 23;
    day ← parseTimeExpression (default "" (Js.index exp 2)) 1 31;
    month ← parseTimeExpression (default "" (Js.index exp 3)) 1 12;
    weekday ← parseTimeExpression (default "" (Js.index exp 4)) 0 6;
    year ← (if 6 <=? Z.of_nat (length exp)
            then parseTimeExpression (default "" (Js.index exp 5)) 2020 2099
            else Ok None);
    Ok (StoredTask.mk (Task.name task) (Task.expression task)
          (Task.callBack task) (default "" (Task.comment task))
          (Task.maxRuns task) None 0
          (default [] min) (default [] hour) (default [] day)
          (default [] month) (default [] weekday) year).

(** The [catch] block of [addTask]. *)
Definition relabel (task : Task.t) (err : Error) : Error :=
  if String.eqb (message err) "Invalid expression" then
    mkError "SyntaxError"
      ("Invalid cron expression '" +:+ Task.expression task +:+
       "' for task '" +:+ Task.name task +:+ "'")
  else err.

(** [expression.replace(/ +/g, ' ').trim().split(' ')] *)
Definition fields (expression : string) : list string :=
  Js.split " " (Js.trim (Js.collapse_spaces expression)).

(** [addTask(task)], [d] being the clock: the state afterwards, and
    [Throw] when the call throws. *)
Definition addTask (d : Date) (task : Task.t) (st : State)
    : result unit * State :=
  let exp := fields (Task.expression task) in
  match compile task exp with
  | Ok newTask =>
      let st1 := push newTask st in
      let st2 := match runner st1 with
                 | None => start d st1
                 | Some _ => st1
                 end in
      (Ok (), st2)
  | Throw err => (Throw (relabel task err), st)
  end.

(** [tasks.findIndex(item => item.name === name)], [-1] when no item has
    the name; [i] is the index of the head of [l]. *)
Fixpoint findIndex_from (hp : list StoredTask.t) (name : string)
    (i : Z) (l : list ref) : Z :=
  match l with
  | [] => -1
  | r :: l' =>
      match hp !! r with
      | Some item =>
          if String.eqb (StoredTask.name item) name then i
          else findIndex_from hp name (i + 1) l'
      | None => findIndex_from hp name (i + 1) l'
      end
  end.

Definition removeTask (name : string) (st : State) : State :=
  let idx := findIndex_from (heap st) name 0 (tasks st) in
  if -1 <? idx then set_tasks (delete (Z.to_nat idx) (tasks st)) st
  else st.

Definition info_of (task : StoredTask.t) : TaskInfo.t :=
  TaskInfo.mk (StoredTask.name task) (StoredTask.expression task)
    (StoredTask.comment task) (StoredTask.lastRun task)
    (StoredTask.countRuns task) (StoredTask.maxRuns task).

(** [getTasks()] *)
Definition getTasks (st : State) : list TaskInfo.t :=
  omap (fun r => info_of <$> heap st !! r) (tasks st).

(** ** The tick *)

(** The keys of the object [now], in the order [Object.entries] gives. *)
Inductive Key : Type := Kmin | Khour | Kday | Kmonth | Kweekday | Kyear.

(** The object [now] that [tick] builds from the clock.  In
    [d.getMinutes() + d.getSeconds() > 50 ? 1 : 0] the sum is the left
    operand of [>], and the comparison is the condition of [? :]. *)
Definition now_of (d : Date) : list (Key * Z) :=
  [ (Kmin, if 50 <? getMinutes d + getSeconds d then 1 else 0);
    (Khour, getHours d);
    (Kday, getDate d);
    (Kmonth, getMonth d + 1);
    (Kweekday, getDay d);
    (Kyear, getFullYear d) ].

(** [(task as any)[key]] for a key other than [year]. *)
Definition field (task : StoredTask.t) (key : Key) : list Z :=
  match key with
  | Kmin => StoredTask.min task
  | Khour => StoredTask.hour task
  | Kday => StoredTask.day task
  | Kmonth => StoredTask.month task
  | Kweekday => StoredTask.weekday task
  | Kyear => default [] (StoredTask.year task)
  end.

(** The callback of [Object.entries(now).every]. *)
Definition entry_ok (task : StoredTask.t) (entry : Key * Z) : bool :=
  match fst entry with
  | Kyear =>
      match StoredTask.year task with
      | None => true
      | Some years => existsInArray years (snd entry)
      end
  | key => existsInArray (field task key) (snd entry)
  end.

(** [runTask]: whether [task] is due at the snapshot [now]. *)
Definition runTask (task : StoredTask.t) (now : list (Key * Z)) : bool :=
  forallb (entry_ok task) now.

(** The body of [tasks.forEach] in [tick]: the tasks that are due, each
    with its line on the console; their executions are deferred. *)
Fixpoint due (hp : list StoredTask.t) (now : list (Key * Z))
    (l : list ref) : list ref * list Log :=
  match l with
  | [] => ([], [])
  | r :: l' =>
      let '(rs, out) := due hp now l' in
      match hp !! r with
      | Some task =>
          if runTask task now
          then (r :: rs,
                LogInfo ("myCron: Running task " +:+ StoredTask.name task)
                  :: out)
          else (rs, out)
      | None => (rs, out)
      end
  end.

(** [tick()], [d] being the clock: the state afterwards and the task
    objects whose execution it has scheduled, in order. *)
Definition tick (d : Date) (st : State) : State * list ref :=
  let st1 :=
    set_runner (Some (mkTimeout ((60 - getSeconds d) * 1000) false)) st in
  let now := now_of d in
  let '(rs, out) := due (heap st1) now (tasks st1) in
  (log out st1, rs).

(** [task.maxRuns && task.countRuns === task.maxRuns] *)
Definition reached_maxRuns (task : StoredTask.t) : bool :=
  match StoredTask.maxRuns task with
  | Some m => negb (m =? 0) && (StoredTask.countRuns task =? m)
  | None => false
  end.

Definition failed (name err : string) : list Log :=
  [ LogError ("myCron: Error executing task " +:+ name +:+ ":");
    LogError err ].

(** One deferred execution scheduled by [tick] for the task object [r],
    [d] being the clock when it runs.  A callback that throws leaves the
    [try] block at the call; the handler of a rejected promise writes to
    the console after the block has finished.  The callback does not call
    [addTask] or [removeTask] (see [Outcome]). *)
Definition execute (d : Date) (r : ref) (st : State) : State :=
  match heap st !! r with
  | None => st
  | Some task0 =>
      let task := StoredTask.ran d task0 in
      let st1 := store task r st in
      match StoredTask.callBack task () with
      | Throws err => log (failed (StoredTask.name task) err) st1
      | Returns =>
          if reached_maxRuns task
          then removeTask (StoredTask.name task) st1 else st1
      | ReturnsPromise rejection =>
          let st2 :=
            if reached_maxRuns task
            then removeTask (StoredTask.name task) st1 else st1 in
          match rejection with
          | Some err => log (failed (StoredTask.name task) err) st2
          | None => st2
          end
      end
  end.

(** ** Predicates of the statements *)

(** [[...new Set(retVal)].sort((a, b) => a - b)] *)
Abbreviation normalise retVal :=
  (Js.sort (fun a b => a - b) (Js.uniq retVal)).

(** The state of [(retVal, ok)] between the statements of the parser. *)
Definition forms_inv (min max : Z) (vars : list Z * bool) : Prop :=
  Forall (fun x => min <= x <= max) (fst vars) /\
  (snd vars = false -> fst vars = []) /\
  (snd vars = true -> min <= max -> fst vars <> []).

(** A field set as the specification wants it: strictly ascending (so
    without duplicates) and inside the domain [min .. max]. *)
Definition field_set (min max : Z) (l : list Z) : Prop :=
  StronglySorted Z.lt l /\ List.NoDup l /\
  Forall (fun x => min <= x <= max) l.

(** The compiled sets of a stored task, as the specification wants them. *)
Definition compiled_sets (task : StoredTask.t) : Prop :=
  field_set 0 59 (StoredTask.min task) /\
  field_set 0 23 (StoredTask.hour task) /\
  field_set 1 31 (StoredTask.day task) /\
  field_set 1 12 (StoredTask.month task) /\
  field_set 0 6 (StoredTask.weekday task) /\
  match StoredTask.year task with
  | Some years => field_set 2020 2099 years /\ years <> []
  | None => True
  end.

Definition nonempty_sets (task : StoredTask.t) : Prop :=
  StoredTask.min task <> [] /\ StoredTask.hour task <> [] /\
  StoredTask.day task <> [] /\ StoredTask.month task <> [] /\
  StoredTask.weekday task <> [].

(** ** Runs of the module *)

(** The states the module can be in: the exported operations and the two
    kinds of timer callback, run from the initial state with any argument
    and at any time. *)
Inductive reachable : State -> Prop :=
| reach_initial : reachable initial
| reach_addTask d task st :
    reachable st -> reachable (snd (addTask d task st))
| reach_removeTask name st :
    reachable st -> reachable (removeTask name st)
| reach_tick d st :
    reachable st -> reachable (fst (tick d st))
| reach_execute d r st :
    reachable st -> reachable (execute d r st).

(** Every registered reference points at a task object. *)
Definition refs_valid (st : State) : Prop :=
  Forall (fun r => (r < length (heap st))%nat) (tasks st).

(** A sequence of [addTask] calls, stopping at the first that throws. *)
Fixpoint addTasks (calls : list (Date * Task.t)) (st : State)
    : result unit * State :=
  match calls with
  | [] => (Ok (), st)
  | (d, task) :: rest =>
      match addTask d task st with
      | (Ok _, st') => addTasks rest st'
      | (Throw e, st') => (Throw e, st')
      end
  end.

(** The entry of [getTasks] for a task that has just been added. *)
Definition info_new (task : Task.t) : TaskInfo.t :=
  TaskInfo.mk (Task.name task) (Task.expression task)
    (default "" (Task.comment task)) None 0 (Task.maxRuns task).

(** ** Further predicates for the properties *)


(** Every character class of the pattern [r] is inside the class [p]. *)
Fixpoint classes_within (p : ascii -> bool) (r : Js.regex) : Prop :=
  match r with
  | Js.Void | Js.Eps => True
  | Js.Class q => forall c, q c = true -> p c = true
  | Js.Seq r1 r2 | Js.Alt r1 r2 => classes_within p r1 /\ classes_within p r2
  | Js.Star r1 => classes_within p r1
  end.

(** [arr.join(sep)] for a separator of one character. *)
Fixpoint join (sep : ascii) (arr : list string) : string :=
  match arr with
  | [] => ""
  | [x] => x
  | x :: rest => x +:+ String sep (join sep rest)
  end.

(** The results of the parser on the terms of a list, in order: the
    values of every term, or [None] when a term throws. *)
Fixpoint parse_terms (min max : Z) (terms : list string)
    : option (list (list Z)) :=
  match terms with
  | [] => Some []
  | term :: rest =>
      match parseTimeExpression term min max with
      | Ok (Some values) =>
          match parse_terms min max rest with
          | Some vss => Some (values :: vss)
          | None => None
          end
      | _ => None
      end
  end.

(** A term of a list as the list pattern wants it: not empty, and made of
    digits and hyphens. *)
Definition term_shaped (term : string) : Prop :=
  term <> "" /\ Js.all_chars Js.is_digit_or_hyphen term = true.

(** The registry [l] without the first reference to an object named
    [name]. *)
Fixpoint remove_first_named (hp : list StoredTask.t) (name : string)
    (l : list ref) : list ref :=
  match l with
  | [] => []
  | r :: l' =>
      match hp !! r with
      | Some item =>
          if String.eqb (StoredTask.name item) name then l'
          else r :: remove_first_named hp name l'
      | None => r :: remove_first_named hp name l'
      end
  end.

(** A listing without its first entry named [name]. *)
Fixpoint remove_first_info (name : string) (l : list TaskInfo.t)
    : list TaskInfo.t :=
  match l with
  | [] => []
  | i :: l' =>
      if String.eqb (TaskInfo.name i) name then l'
      else i :: remove_first_info name l'
  end.

(** A value that [existsInArray] finds in an ascending array: the array
    has fewer than ten elements and holds the value. *)
Definition short_member (l : list Z) (v : Z) : Prop :=
  (length l < 10)%nat /\ In v l.

(** The clock readings [d] at which the predicate of [tick] holds of a
    task whose sets are ascending. *)
Definition due_at (task : StoredTask.t) (d : Date) : Prop :=
  short_member (StoredTask.min task)
    (if 50 <? getMinutes d + getSeconds d then 1 else 0) /\
  short_member (StoredTask.hour task) (getHours d) /\
  short_member (StoredTask.day task) (getDate d) /\
  short_member (StoredTask.month task) (getMonth d + 1) /\
  short_member (StoredTask.weekday task) (getDay d) /\
  match StoredTask.year task with
  | Some years => short_member years (getFullYear d)
  | None => True
  end.

(** Whether the task object at [r] is due at the snapshot [now]. *)
Definition is_due (hp : list StoredTask.t) (now : list (Key * Z))
    (r : ref) : bool :=
  match hp !! r with
  | Some task => runTask task now
  | None => false
  end.

(** The console line of [tick] for the task object at [r]. *)
Definition running_line (hp : list StoredTask.t) (r : ref) : option Log :=
  (fun task => LogInfo ("myCron: Running task " +:+ StoredTask.name task))
    <$> hp !! r.

(** Whether the call of a callback ends with an exception. *)
Definition throws (o : Outcome) : bool :=
  match o with
  | Throws _ => true
  | _ => false
  end.

(** One operation of the module: an exported call or a timer callback. *)
Inductive step : State -> State -> Prop :=
| step_addTask d task st : step st (snd (addTask d task st))
| step_removeTask name st : step st (removeTask name st)
| step_tick d st : step st (fst (tick d st))
| step_execute d r st : step st (execute d r st).

(** What registration fixes in a task object: everything but [lastRun]
    and [countRuns]. *)
Definition same_task (t t' : StoredTask.t) : Prop :=
  StoredTask.name t' = StoredTask.name t /\
  StoredTask.expression t' = StoredTask.expression t /\
  StoredTask.callBack t' = StoredTask.callBack t /\
  StoredTask.comment t' = StoredTask.comment t /\
  StoredTask.maxRuns t' = StoredTask.maxRuns t /\
  StoredTask.min t' = StoredTask.min t /\
  StoredTask.hour t' = StoredTask.hour t /\
  StoredTask.day t' = StoredTask.day t /\
  StoredTask.month t' = StoredTask.month t /\
  StoredTask.weekday t' = StoredTask.weekday t /\
  StoredTask.year t' = StoredTask.year t.

(** Any number of operations, one after the other. *)
Inductive steps : State -> State -> Prop :=
| steps_none st : steps st st
| steps_more st st1 st' : step st st1 -> steps st1 st' -> steps st st'.

(** No two spaces side by side. *)
Fixpoint single_spaced (s : string) : bool :=
  match s with
  | EmptyString => true
  | String c s' =>
      match s' with
      | String c' _ =>
          negb (Ascii.eqb c " " && Ascii.eqb c' " ") && single_spaced s'
      | EmptyString => true
      end
  end.

Definition starts_with_space (s : string) : bool :=
  match s with
  | String c _ => Ascii.eqb c " "
  | EmptyString => false
  end.

Fixpoint ends_with_space (s : string) : bool :=
  match s with
  | EmptyString => false
  | String c s' =>
      match s' with
      | EmptyString => Ascii.eqb c " "
      | _ => ends_with_space s'
      end
  end.

(** The domains of the six fields, in the order of the expression. *)
Definition domains : list (Z * Z) :=
  [(0, 59); (0, 23); (1, 31); (1, 12); (0, 6); (2020, 2099)].

(** The field [f] parses in the domain [dom]. *)
Definition field_parses (f : string) (dom : Z * Z) : Prop :=
  exists l, parseTimeExpression f (fst dom) (snd dom) = Ok (Some l).

(** The error that a call of a callback reports, if any: the exception it
    throws or the reason its promise is rejected with. *)
Definition failure_of (o : Outcome) : option string :=
  match o with
  | Returns => None
  | ReturnsPromise rejection => rejection
  | Throws err => Some err
  end.

(** ** Bounds of the numbers and of the texts *)

(** [Number.MAX_SAFE_INTEGER]: up to it, and down to its opposite, every
    integer is a [number] and [i++] and [parseInt] are exact. *)
Definition MAX_SAFE_INTEGER : Z := 2 ^ 53 - 1.

(** The greatest length of an array; [push] throws beyond it. *)
Definition MAX_ARRAY_LENGTH : Z := 2 ^ 32 - 1.

(** A blank text: white space only, or nothing. *)
Definition blank (s : string) : bool := Js.all_chars Js.is_white s.

(* ================================================================== *)
(** * Properties *)

(** ** Strings and patterns *)

Section StringFacts.

Lemma app_cons c (s t : string) : String c s +:+ t = String c (s +:+ t).
Proof. reflexivity. Qed.

Lemma app_empty_l (s : string) : "" +:+ s = s.
Proof. reflexivity. Qed.

Lemma app_empty_r (s : string) : s +:+ "" = s.
Proof.
  induction s as [|c s IH]; [reflexivity|]. now rewrite app_cons, IH.
Qed.

Lemma app_assoc_str (s1 s2 s3 : string) :
  (s1 +:+ s2) +:+ s3 = s1 +:+ (s2 +:+ s3).
Proof.
  induction s1 as [|c s1 IH]; [reflexivity|]. now rewrite !app_cons, IH.
Qed.

Lemma app_eq_empty (s1 s2 : string) :
  s1 +:+ s2 = "" -> s1 = "" /\ s2 = "".
Proof.
  destruct s1; [rewrite app_empty_l; auto | rewrite app_cons; discriminate].
Qed.

Lemma all_chars_app p (s1 s2 : string) :
  Js.all_chars p (s1 +:+ s2) = Js.all_chars p s1 && Js.all_chars p s2.
Proof.
  induction s1 as [|c s1 IH]; [reflexivity|].
  rewrite app_cons. simpl. now rewrite IH, andb_assoc.
Qed.

Lemma has_char_app c (s1 s2 : string) :
  Js.has_char c (s1 +:+ s2) = Js.has_char c s1 || Js.has_char c s2.
Proof.
  induction s1 as [|c1 s1 IH]; [reflexivity|].
  rewrite app_cons. simpl. now rewrite IH, orb_assoc.
Qed.

(** A string made of characters of a class does not hold a character
    outside the class. *)
Lemma all_chars_has_char p c (s : string) :
  Js.all_chars p s = true -> p c = false -> Js.has_char c s = false.
Proof.
  intros Hall Hc. induction s as [|c1 s IH]; simpl in *; [reflexivity|].
  apply andb_true_iff in Hall as [H1 H2]. rewrite (IH H2), orb_false_r.
  destruct (Ascii.eqb_spec c1 c) as [->|]; [congruence | reflexivity].
Qed.

End StringFacts.

Section RegexFacts.

Import Js.

Lemma nullable_Matches r : nullable r = true <-> Matches r "".
Proof.
  split.
  - induction r; simpl; intros H; try discriminate.
    + constructor.
    + apply andb_true_iff in H as [H1 H2].
      change "" with ("" +:+ ""). constructor; auto.
    + apply orb_true_iff in H as [H|H]; [apply MAltL | apply MAltR]; auto.
    + constructor.
  - intros H. remember "" as s eqn:Es.
    induction H; simpl; try discriminate; auto.
    + apply app_eq_empty in Es as [-> ->].
      rewrite IHMatches1, IHMatches2; auto.
    + rewrite IHMatches; auto.
    + rewrite IHMatches, orb_true_r; auto.
Qed.

Lemma deriv_sound c r : forall s, Matches (deriv c r) s -> Matches r (String c s).
Proof.
  induction r; simpl; intros s H.
  - inversion H.
  - inversion H.
  - destruct (p c) eqn:Hp; inversion H; subst. now constructor.
  - assert (Hseq : forall t, Matches (Seq (deriv c r1) r2) t ->
                             Matches (Seq r1 r2) (String c t)).
    { intros t Ht. inversion Ht; subst.
      change (String c (s1 +:+ s2)) with (String c s1 +:+ s2).
      constructor; auto. }
    destruct (nullable r1) eqn:Hn; [|auto].
    inversion H; subst; [auto|].
    change (String c s) with ("" +:+ String c s).
    constructor; [now apply nullable_Matches | auto].
  - inversion H; subst; [apply MAltL | apply MAltR]; auto.
  - inversion H; subst.
    change (String c (s1 +:+ s2)) with (String c s1 +:+ s2).
    constructor; auto.
Qed.

Lemma deriv_complete c r w :
  Matches r w -> forall t, w = String c t -> Matches (deriv c r) t.
Proof.
  induction 1 as [ | p c0 Hp | r1 r2 s1 s2 H1 IH1 H2 IH2 | r1 r2 s H1 IH1
                 | r1 r2 s H2 IH2 | r | r s1 s2 H1 IH1 H2 IH2 ];
    intros t Et; simpl; try discriminate.
  - injection Et as -> <-. rewrite Hp. constructor.
  - destruct s1 as [|c1 s1];
      [rewrite app_empty_l in Et | rewrite app_cons in Et].
    + apply nullable_Matches in H1. rewrite H1.
      apply MAltR. auto.
    + injection Et as -> <-.
      destruct (nullable r1); [apply MAltL|]; constructor; auto.
  - apply MAltL; auto.
  - apply MAltR; auto.
  - destruct s1 as [|c1 s1];
      [rewrite app_empty_l in Et | rewrite app_cons in Et].
    + apply IH2 in Et. exact Et.
    + injection Et as -> <-. constructor; auto.
Qed.

(** [test] decides the language of the pattern. *)
Lemma test_Matches : forall s r, test r s = true <-> Matches r s.
Proof.
  induction s as [|c s IH]; intros r; simpl.
  - apply nullable_Matches.
  - rewrite IH. split; [apply deriv_sound|].
    intros H. eapply deriv_complete; eauto.
Qed.

Lemma Matches_Class_inv p s :
  Matches (Class p) s -> exists c, s = String c "" /\ p c = true.
Proof. intros H. inversion H; subst. eauto. Qed.

Lemma Matches_Seq_inv r1 r2 s :
  Matches (Seq r1 r2) s ->
  exists s1 s2, s = s1 +:+ s2 /\ Matches r1 s1 /\ Matches r2 s2.
Proof. intros H. inversion H; subst. eauto. Qed.

Lemma Matches_Star_Class p s :
  Matches (Star (Class p)) s -> all_chars p s = true.
Proof.
  remember (Star (Class p)) as r eqn:Er.
  induction 1 as [ | | | | | r0 | r0 s1 s2 H1 _ H2 IH2 ]; try discriminate.
  - reflexivity.
  - injection Er as ->.
    apply Matches_Class_inv in H1 as (c & -> & Hc).
    rewrite app_cons, app_empty_l. simpl. rewrite Hc. simpl. auto.
Qed.

Lemma Star_Class_Matches p s :
  all_chars p s = true -> Matches (Star (Class p)) s.
Proof.
  induction s as [|c s IH]; simpl; intros H; [constructor|].
  apply andb_true_iff in H as [H1 H2].
  change (String c s) with (String c "" +:+ s).
  constructor; [now constructor | auto].
Qed.

(** [[p]+] matches the non-empty strings made of characters of [p]. *)
Lemma Matches_Plus_Class p s :
  Matches (Plus (Class p)) s <-> s <> "" /\ all_chars p s = true.
Proof.
  split.
  - intros H. apply Matches_Seq_inv in H as (s1 & s2 & -> & H1 & H2).
    apply Matches_Class_inv in H1 as (c & -> & Hc).
    rewrite app_cons, app_empty_l. split; [discriminate|].
    simpl. rewrite Hc. simpl. now apply Matches_Star_Class.
  - intros [Hne H]. destruct s as [|c s]; [congruence|].
    simpl in H. apply andb_true_iff in H as [H1 H2].
    change (String c s) with (String c "" +:+ s).
    constructor; [now constructor | now apply Star_Class_Matches].
Qed.

End RegexFacts.

Section PatternFacts.

Lemma test_single_iff s :
  Js.test re_single s = true <->
  s <> "" /\ Js.all_chars Js.is_digit s = true.
Proof.
  unfold re_single. now rewrite test_Matches, Matches_Plus_Class.
Qed.

Lemma test_range_intro (a b : string) :
  a <> "" -> Js.all_chars Js.is_digit a = true ->
  b <> "" -> Js.all_chars Js.is_digit b = true ->
  Js.test re_range (a +:+ "-" +:+ b) = true.
Proof.
  intros Ha Da Hb Db. apply test_Matches. unfold re_range.
  constructor; [now apply Matches_Plus_Class|].
  change ("-" +:+ b) with (String "-" "" +:+ b).
  constructor; [now constructor | now apply Matches_Plus_Class].
Qed.

(** A string that matches the list pattern holds a comma. *)
Lemma test_list_has_comma s :
  Js.test re_list s = true -> Js.has_char "," s = true.
Proof.
  intros H. apply test_Matches in H. unfold re_list in H.
  apply Matches_Seq_inv in H as (s1 & s2 & -> & _ & H).
  apply Matches_Seq_inv in H as (s3 & s4 & -> & H & _).
  apply Matches_Seq_inv in H as (s5 & s6 & -> & H & _).
  apply Matches_Class_inv in H as (c & -> & Hc).
  apply Ascii.eqb_eq in Hc as <-.
  rewrite !has_char_app. simpl. now rewrite orb_true_r.
Qed.

Lemma is_digit_not (c : ascii) :
  Js.is_digit c = true -> c <> "-"%char /\ c <> ","%char /\ c <> "*"%char.
Proof.
  intros H. repeat split; intros ->; vm_compute in H; discriminate.
Qed.

Lemma digits_no_char (c : ascii) (s : string) :
  Js.is_digit c = false ->
  Js.all_chars Js.is_digit s = true -> Js.has_char c s = false.
Proof. intros Hc Hs. eapply all_chars_has_char; eauto. Qed.

Lemma split_nonempty sep s : Js.split sep s <> [].
Proof.
  destruct s as [|c s]; simpl; [discriminate|].
  destruct (Ascii.eqb c sep); [discriminate|].
  destruct (Js.split sep s); discriminate.
Qed.

Lemma split_no_sep sep s : Js.has_char sep s = false -> Js.split sep s = [s].
Proof.
  induction s as [|c s IH]; simpl; intros H; [reflexivity|].
  apply orb_false_iff in H as [H1 H2]. now rewrite H1, (IH H2).
Qed.

Lemma split_app sep (a b : string) :
  Js.has_char sep a = false ->
  Js.split sep (a +:+ String sep b) = a :: Js.split sep b.
Proof.
  induction a as [|c a IH]; intros H.
  - rewrite app_empty_l. simpl. now rewrite Ascii.eqb_refl.
  - simpl in H. apply orb_false_iff in H as [H1 H2].
    rewrite app_cons. simpl. now rewrite H1, (IH H2).
Qed.

(** No piece of [s.split(sep)] holds the separator. *)
Lemma split_pieces sep s :
  Forall (fun p => Js.has_char sep p = false) (Js.split sep s).
Proof.
  induction s as [|c s IH]; simpl; [repeat constructor|].
  destruct (Ascii.eqb c sep) eqn:Hc; [constructor; auto|].
  destruct (Js.split sep s) as [|p ps]; [repeat constructor; simpl|].
  - now rewrite Hc.
  - inversion IH; subst. constructor; [simpl|assumption].
    now rewrite Hc.
Qed.

End PatternFacts.

(** ** Arrays of numbers *)

Section ArrayFacts.

Lemma count_from_In n : forall i x,
  In x (Js.count_from n i) <-> i <= x < i + Z.of_nat n.
Proof.
  induction n as [|n IH]; intros i x; simpl.
  - lia.
  - rewrite IH. lia.
Qed.

Lemma for_range_In lo hi x : In x (Js.for_range lo hi) <-> lo <= x <= hi.
Proof. unfold Js.for_range. rewrite count_from_In. lia. Qed.

Lemma count_from_sorted n : forall i, StronglySorted Z.lt (Js.count_from n i).
Proof.
  induction n as [|n IH]; intros i; simpl; constructor; [apply IH|].
  apply List.Forall_forall. intros x Hx. apply count_from_In in Hx. lia.
Qed.

Lemma for_range_sorted lo hi : StronglySorted Z.lt (Js.for_range lo hi).
Proof. apply count_from_sorted. Qed.

Lemma for_range_nonempty lo hi : lo <= hi -> Js.for_range lo hi <> [].
Proof.
  intros H. unfold Js.for_range.
  destruct (Z.to_nat (hi - lo + 1)) eqn:E; [lia | discriminate].
Qed.

Lemma existsb_eqb_In x (l : list Z) : existsb (Z.eqb x) l = true <-> In x l.
Proof.
  rewrite existsb_exists. split.
  - intros (y & Hy & E). apply Z.eqb_eq in E. now subst.
  - intros H. exists x. split; [assumption | apply Z.eqb_refl].
Qed.

Lemma includes_In (l : list Z) v : Js.includes l v = true <-> In v l.
Proof. apply existsb_eqb_In. Qed.

Lemma set_from_In l : forall seen x,
  In x (Js.set_from seen l) <-> In x l /\ ~ In x seen.
Proof.
  induction l as [|y l IH]; intros seen x; simpl; [tauto|].
  destruct (existsb (Z.eqb y) seen) eqn:E.
  - apply existsb_eqb_In in E. rewrite IH.
    split; [tauto|]. intros [[->|H] Hn]; tauto.
  - assert (Hy : ~ In y seen).
    { intros H. apply existsb_eqb_In in H. congruence. }
    simpl. rewrite IH. simpl.
    destruct (Z.eq_dec y x) as [->|Hne]; tauto.
Qed.

Lemma set_from_NoDup l : forall seen, List.NoDup (Js.set_from seen l).
Proof.
  induction l as [|y l IH]; intros seen; simpl; [constructor|].
  destruct (existsb (Z.eqb y) seen); [apply IH|].
  constructor; [|apply IH].
  rewrite set_from_In. simpl. tauto.
Qed.

Lemma uniq_In l x : In x (Js.uniq l) <-> In x l.
Proof. unfold Js.uniq. rewrite set_from_In. simpl. tauto. Qed.

Lemma uniq_NoDup l : List.NoDup (Js.uniq l).
Proof. apply set_from_NoDup. Qed.

(** A list without duplicates is the list of its set. *)
Lemma set_from_NoDup_id l : forall seen,
  List.NoDup l -> (forall x, In x l -> ~ In x seen) -> Js.set_from seen l = l.
Proof.
  induction l as [|y l IH]; intros seen Hnd Hdis; simpl; [reflexivity|].
  inversion Hnd as [|? ? Hy Hl]; subst.
  destruct (existsb (Z.eqb y) seen) eqn:E.
  - apply existsb_eqb_In in E. exfalso. apply (Hdis y); simpl; auto.
  - f_equal. apply IH; [assumption|].
    intros x Hx [<-|Hs]; [contradiction|].
    apply (Hdis x); simpl; auto.
Qed.

Lemma uniq_NoDup_id l : List.NoDup l -> Js.uniq l = l.
Proof. intros H. apply set_from_NoDup_id; [assumption | simpl; tauto]. Qed.

Lemma insert_sorted_In cmp x l y :
  In y (Js.insert_sorted cmp x l) <-> y = x \/ In y l.
Proof.
  induction l as [|z l IH]; simpl; [intuition|].
  destruct (cmp x z <=? 0); simpl; [intuition|].
  rewrite IH. intuition.
Qed.

Lemma sort_In cmp l y : In y (Js.sort cmp l) <-> In y l.
Proof.
  induction l as [|x l IH]; simpl; [tauto|].
  rewrite insert_sorted_In, IH. intuition.
Qed.

Lemma sort_length cmp l : length (Js.sort cmp l) = length l.
Proof.
  induction l as [|x l IH]; simpl; [reflexivity|]. rewrite <- IH.
  generalize (Js.sort cmp l). intros m.
  induction m as [|z m IHm]; simpl; [reflexivity|].
  destruct (cmp x z <=? 0); simpl; [reflexivity | now rewrite IHm].
Qed.

(** Inserting a new value in a strictly ascending list keeps it strictly
    ascending, under the comparator [a - b]. *)
Lemma insert_sorted_lt x l :
  StronglySorted Z.lt l -> ~ In x l ->
  StronglySorted Z.lt (Js.insert_sorted (fun a b => a - b) x l).
Proof.
  induction l as [|z l IH]; simpl; intros Hs Hx.
  - repeat constructor.
  - inversion Hs as [|? ? Hl Hz]; subst.
    destruct (x - z <=? 0) eqn:E.
    + apply Z.leb_le in E. assert (x < z) by lia.
      constructor; [assumption|]. constructor; [assumption|].
      eapply List.Forall_impl; [|exact Hz]. simpl. intros; lia.
    + apply Z.leb_gt in E. constructor; [apply IH; tauto|].
      apply List.Forall_forall. intros y Hy.
      apply insert_sorted_In in Hy as [->|Hy]; [lia|].
      rewrite List.Forall_forall in Hz. auto.
Qed.

Lemma sort_NoDup_sorted l :
  List.NoDup l -> StronglySorted Z.lt (Js.sort (fun a b => a - b) l).
Proof.
  induction 1 as [|x l Hx Hl IH]; simpl; [constructor|].
  apply insert_sorted_lt; [assumption|]. now rewrite sort_In.
Qed.

(** Sorting a strictly ascending list changes nothing. *)
Lemma sort_sorted_id l :
  StronglySorted Z.lt l -> Js.sort (fun a b => a - b) l = l.
Proof.
  induction 1 as [|x l Hl IH Hx]; simpl; [reflexivity|].
  rewrite IH. destruct l as [|z l]; simpl; [reflexivity|].
  inversion Hx; subst.
  destruct (x - z <=? 0) eqn:E; [reflexivity|].
  apply Z.leb_gt in E. lia.
Qed.

Lemma StronglySorted_lt_NoDup (l : list Z) : StronglySorted Z.lt l -> List.NoDup l.
Proof.
  induction 1 as [|x l Hl IH Hx]; constructor; [|assumption].
  intros Hin. rewrite List.Forall_forall in Hx. apply Hx in Hin. lia.
Qed.

(** What [parseTimeExpression] returns for the values [retVal]. *)
Lemma normalise_sorted retVal :
  StronglySorted Z.lt (Js.sort (fun a b => a - b) (Js.uniq retVal)).
Proof. apply sort_NoDup_sorted, uniq_NoDup. Qed.

Lemma normalise_In retVal x :
  In x (Js.sort (fun a b => a - b) (Js.uniq retVal)) <-> In x retVal.
Proof. now rewrite sort_In, uniq_In. Qed.

Lemma normalise_sorted_id l :
  StronglySorted Z.lt l -> Js.sort (fun a b => a - b) (Js.uniq l) = l.
Proof.
  intros H. rewrite uniq_NoDup_id by now apply StronglySorted_lt_NoDup.
  now apply sort_sorted_id.
Qed.

Lemma normalise_nonempty retVal :
  retVal <> [] -> Js.sort (fun a b => a - b) (Js.uniq retVal) <> [].
Proof.
  destruct retVal as [|x l]; [congruence|]. intros _ E.
  assert (H : In x (Js.sort (fun a b => a - b) (Js.uniq (x :: l)))).
  { apply normalise_In. simpl. auto. }
  rewrite E in H. destruct H.
Qed.

End ArrayFacts.

(** ** The field parser *)

Section ParserFacts.

Lemma parse_fuel_S fuel s min max :
  parseTimeExpression_fuel (S fuel) s min max =
  let '(retVal, ok) := simple_forms s min max in
  let step :=
    if negb ok && Js.test re_list s then
      every_term (fun value => parseTimeExpression_fuel fuel value min max)
        (Js.split "," s) retVal
    else Some (retVal, ok) in
  match step with
  | None => None
  | Some (retVal, ok) =>
      if ok then Some (Ok (Some (normalise retVal)))
      else Some (Throw (new_Error ("Invalid expression: " +:+ s)))
  end.
Proof. reflexivity. Qed.

Lemma every_term_ext f g arr : forall retVal,
  Forall (fun v => f v = g v) arr ->
  every_term f arr retVal = every_term g arr retVal.
Proof.
  induction arr as [|v arr IH]; intros retVal H; simpl; [reflexivity|].
  inversion H as [|? ? Hv Harr]; subst. rewrite Hv.
  destruct (g v) as [[[values|]|]|]; auto.
Qed.

Lemma every_term_Some f arr : forall retVal,
  Forall (fun v => f v <> None) arr -> every_term f arr retVal <> None.
Proof.
  induction arr as [|v arr IH]; intros retVal H; simpl; [discriminate|].
  inversion H as [|? ? Hv Harr]; subst.
  destruct (f v) as [[[values|]|]|]; try discriminate; auto.
Qed.

(** When [every] gives [true], every term has parsed and [retVal] has
    received the values of the terms in order. *)
Lemma every_term_true f arr : forall retVal rv,
  every_term f arr retVal = Some (rv, true) ->
  exists vss,
    Forall2 (fun v vs => f v = Some (Ok (Some vs))) arr vss /\
    rv = retVal ++ concat vss.
Proof.
  induction arr as [|v arr IH]; intros retVal rv H; simpl in H.
  - injection H as <-. exists []. split; [constructor|].
    simpl. now rewrite app_nil_r.
  - destruct (f v) as [[[values|]|]|] eqn:Ev; try discriminate.
    apply IH in H as (vss & Hall & ->).
    exists (values :: vss). split; [now constructor|].
    simpl. now rewrite app_assoc.
Qed.

(** A term of a list holds no comma, so it is parsed without recursion. *)
Lemma parse_fuel_term n v min max :
  Js.has_char "," v = false ->
  parseTimeExpression_fuel (S n) v min max =
    parseTimeExpression_fuel 1 v min max /\
  parseTimeExpression_fuel 1 v min max <> None.
Proof.
  intros Hv. rewrite !parse_fuel_S.
  assert (Hl : Js.test re_list v = false).
  { destruct (Js.test re_list v) eqn:E; [|reflexivity].
    apply test_list_has_comma in E. congruence. }
  destruct (simple_forms v min max) as [retVal ok].
  rewrite Hl, andb_false_r. simpl.
  split; [reflexivity|]. destruct ok; discriminate.
Qed.

(** Two calls deep is always enough: with any fuel of at least 2 the
    parser gives the result of [parseTimeExpression]. *)
Lemma parseTimeExpression_fuel_enough n s min max :
  parseTimeExpression_fuel (S (S n)) s min max =
  Some (parseTimeExpression s min max).
Proof.
  assert (Hn : parseTimeExpression_fuel (S (S n)) s min max =
               parseTimeExpression_fuel 2 s min max).
  { rewrite (parse_fuel_S (S n)), (parse_fuel_S 1).
    destruct (simple_forms s min max) as [retVal ok].
    destruct (negb ok && Js.test re_list s); [|reflexivity].
    rewrite (every_term_ext _
      (fun value => parseTimeExpression_fuel 1 value min max));
      [reflexivity|].
    eapply List.Forall_impl; [|apply (split_pieces "," s)].
    intros v Hv. now apply parse_fuel_term. }
  rewrite Hn. unfold parseTimeExpression.
  destruct (parseTimeExpression_fuel 2 s min max) eqn:E; [reflexivity|].
  exfalso. rewrite parse_fuel_S in E.
  destruct (simple_forms s min max) as [retVal ok].
  destruct (negb ok && Js.test re_list s).
  - destruct (every_term _ _ _) as [[rv b]|] eqn:Ee.
    + destruct b; discriminate.
    + revert Ee. apply every_term_Some.
      eapply List.Forall_impl; [|apply (split_pieces "," s)].
      intros v Hv. now apply (parse_fuel_term 0).
  - destruct ok; discriminate.
Qed.

(** The unfolding of [parseTimeExpression], the recursive calls being
    calls of [parseTimeExpression] itself. *)
Lemma parseTimeExpression_eq s min max :
  parseTimeExpression s min max =
  let '(retVal, ok) := simple_forms s min max in
  let step :=
    if negb ok && Js.test re_list s then
      every_term (fun value => Some (parseTimeExpression value min max))
        (Js.split "," s) retVal
    else Some (retVal, ok) in
  match step with
  | None => Throw (new_Error "Maximum call stack size exceeded")
  | Some (retVal, ok) =>
      if ok then Ok (Some (normalise retVal))
      else Throw (new_Error ("Invalid expression: " +:+ s))
  end.
Proof.
  pose proof (parseTimeExpression_fuel_enough 1 s min max) as H.
  rewrite parse_fuel_S in H.
  destruct (simple_forms s min max) as [retVal ok].
  rewrite (every_term_ext _
    (fun value => Some (parseTimeExpression value min max))) in H.
  2:{ apply List.Forall_forall. intros v _.
      apply (parseTimeExpression_fuel_enough 0). }
  destruct (negb ok && Js.test re_list s).
  - destruct (every_term _ _ _) as [[rv b]|]; [|discriminate].
    destruct b; injection H as <-; reflexivity.
  - destruct ok; injection H as <-; reflexivity.
Qed.

(** What the three simple forms leave in [retVal]: values of the domain
    only; nothing when no form applied; something when one applied and the
    domain is not empty. *)
Lemma wildcard_form_inv s min max vars :
  forms_inv min max vars -> forms_inv min max (wildcard_form s min max vars).
Proof.
  destruct vars as [retVal ok]. unfold wildcard_form.
  destruct (String.eqb s "*"); [|auto].
  intros (Hin & Hno & Hyes). repeat split; cbn [fst snd] in *.
  - apply Forall_app. split; [assumption|].
    apply List.Forall_forall. intros x. apply for_range_In.
  - discriminate.
  - intros _ Hle E. apply app_eq_nil in E as [_ E].
    revert E. now apply for_range_nonempty.
Qed.

Lemma single_form_inv s min max vars :
  forms_inv min max vars -> forms_inv min max (single_form s min max vars).
Proof.
  destruct vars as [retVal ok]. unfold single_form.
  destruct (negb ok && Js.test re_single s); [|auto].
  destruct (Js.parseInt (Some s)) as [val|]; cbn [ge_num le_num andb];
    [|auto].
  destruct ((min <=? val) && (val <=? max)) eqn:E; [|auto].
  apply andb_true_iff in E as [E1 E2]. apply Z.leb_le in E1, E2.
  intros (Hin & Hno & Hyes). repeat split; cbn [fst snd from_option] in *.
  - apply Forall_app. split; [assumption|]. repeat constructor; lia.
  - discriminate.
  - intros _ _ E. apply app_eq_nil in E as [_ E]. discriminate.
Qed.

Lemma range_form_inv s min max vars :
  forms_inv min max vars -> forms_inv min max (range_form s min max vars).
Proof.
  destruct vars as [retVal ok]. unfold range_form.
  destruct (negb ok && Js.test re_range s); [|auto].
  cbv zeta.
  destruct (Js.parseInt (Js.index (Js.split "-" s) 0)) as [lo|];
    destruct (Js.parseInt (Js.index (Js.split "-" s) 1)) as [hi|];
    cbn [ge_num le_num gt_num andb]; rewrite ?andb_false_r; auto.
  destruct ((min <=? lo) && (hi <=? max) && (lo <? hi)) eqn:E; [|auto].
  apply andb_true_iff in E as [E E3]. apply andb_true_iff in E as [E1 E2].
  apply Z.leb_le in E1, E2. apply Z.ltb_lt in E3.
  intros (Hin & Hno & Hyes). repeat split; cbn [fst snd from_option] in *.
  - apply Forall_app. split; [assumption|].
    apply List.Forall_forall. intros x Hx. apply for_range_In in Hx. lia.
  - discriminate.
  - intros _ _ E. apply app_eq_nil in E as [_ E].
    revert E. apply for_range_nonempty. lia.
Qed.

Lemma simple_forms_spec s min max : forms_inv min max (simple_forms s min max).
Proof.
  apply range_form_inv, single_form_inv, wildcard_form_inv.
  repeat split; cbn [fst snd]; [constructor | discriminate].
Qed.

Lemma terms_values (f : string -> option (result (option (list Z))))
    (P : list Z -> Prop) arr vss :
  Forall2 (fun v vs => f v = Some (Ok (Some vs))) arr vss ->
  (forall v vs, f v = Some (Ok (Some vs)) -> P vs) ->
  Forall P vss.
Proof.
  induction 1 as [|v vs arr vss Hv _ IH]; intros HP; constructor; eauto.
Qed.

Lemma concat_Forall (P : Z -> Prop) (vss : list (list Z)) :
  Forall (Forall P) vss -> Forall P (concat vss).
Proof.
  induction 1 as [|vs vss Hvs _ IH]; simpl; [constructor|].
  apply Forall_app. auto.
Qed.

(** Every result of the parser is the normalised form of values of the
    domain, and of at least one value when the domain is not empty. *)
Lemma parse_fuel_Ok fuel : forall s min max v,
  parseTimeExpression_fuel fuel s min max = Some (Ok v) ->
  exists retVal,
    v = Some (normalise retVal) /\
    Forall (fun x => min <= x <= max) retVal /\
    (min <= max -> retVal <> []).
Proof.
  induction fuel as [|fuel IH]; intros s min max v H; [discriminate|].
  rewrite parse_fuel_S in H.
  pose proof (simple_forms_spec s min max) as (Hin & Hno & Hyes).
  destruct (simple_forms s min max) as [rv0 ok0]. cbn [fst snd] in *.
  destruct (negb ok0 && Js.test re_list s) eqn:Hl.
  - apply andb_true_iff in Hl as [Hok _]. apply negb_true_iff in Hok.
    rewrite (Hno Hok) in H.
    destruct (every_term _ _ _) as [[rv b]|] eqn:Ee; [|discriminate].
    destruct b; [|discriminate]. injection H as <-.
    apply every_term_true in Ee as (vss & Hall & ->).
    exists (concat vss). split; [reflexivity|].
    assert (Hvs : Forall (fun vs => Forall (fun x => min <= x <= max) vs /\
                                    (min <= max -> vs <> [])) vss).
    { eapply terms_values; [exact Hall|]. cbv beta.
      intros v vs Hv. apply IH in Hv as (rv & [= ->] & Hrv & Hne). split.
      - apply List.Forall_forall. intros x Hx. apply (proj1 (normalise_In _ _)) in Hx.
        rewrite List.Forall_forall in Hrv. auto.
      - intros Hle. apply normalise_nonempty. auto. }
    split.
    + apply concat_Forall. eapply List.Forall_impl; [|exact Hvs].
      cbv beta. tauto.
    + intros Hle. pose proof (split_nonempty "," s) as Hs.
      destruct Hall as [|v vs arr vss Hv _]; [congruence|].
      inversion Hvs as [|? ? [_ Hne] _]; subst. simpl.
      intros E. apply app_eq_nil in E as [E _]. now apply Hne.
  - destruct ok0; [|discriminate]. injection H as <-.
    exists rv0. auto.
Qed.

Lemma parseTimeExpression_Ok s min max v :
  parseTimeExpression s min max = Ok v ->
  exists l, v = Some l /\ field_set min max l /\ (min <= max -> l <> []).
Proof.
  intros H.
  pose proof (parseTimeExpression_fuel_enough 0 s min max) as Hf.
  rewrite H in Hf. apply parse_fuel_Ok in Hf as (rv & -> & Hin & Hne).
  exists (normalise rv). split; [reflexivity|]. split.
  - pose proof (normalise_sorted rv) as Hs. split; [assumption|].
    split; [now apply StronglySorted_lt_NoDup|].
    apply List.Forall_forall. intros x Hx. apply (proj1 (normalise_In _ _)) in Hx.
    rewrite List.Forall_forall in Hin. auto.
  - intros Hle. apply normalise_nonempty. auto.
Qed.

End ParserFacts.

(** ** Decimal numerals *)

Section DecimalFacts.

Lemma string_of_uint_digits (u : Decimal.uint) :
  Js.all_chars Js.is_digit (NilEmpty.string_of_uint u) = true.
Proof. induction u; simpl; auto. Qed.

Lemma digits_prefix_uint (u : Decimal.uint) : forall acc, 0 <= acc ->
  Js.digits_prefix acc (NilEmpty.string_of_uint u) =
  Z.of_nat (Nat.of_uint_acc u (Z.to_nat acc)).
Proof.
  induction u as [|u IH|u IH|u IH|u IH|u IH|u IH|u IH|u IH|u IH|u IH];
    intros acc Hacc;
    [simpl; lia | ..];
    cbn [NilEmpty.string_of_uint Js.digits_prefix Nat.of_uint_acc];
    change (Js.is_digit _) with true; cbv iota;
    (rewrite IH; [|vm_compute Js.digit_val; lia]);
    apply (f_equal Z.of_nat), (f_equal (Nat.of_uint_acc u));
    rewrite Nat.tail_mul_spec; vm_compute Js.digit_val; lia.
Qed.

Lemma to_uint_nonnil (n : nat) : Nat.to_uint n <> Decimal.Nil.
Proof.
  rewrite <- (Unsigned.of_to n) at 1. rewrite Unsigned.to_of.
  apply unorm_nonnil.
Qed.

Lemma decimal_digits (n : Z) :
  Js.decimal n <> "" /\ Js.all_chars Js.is_digit (Js.decimal n) = true.
Proof.
  unfold Js.decimal. split; [|apply string_of_uint_digits].
  pose proof (to_uint_nonnil (Z.to_nat n)) as H.
  destruct (Nat.to_uint (Z.to_nat n)); simpl; congruence.
Qed.

(** Reading the decimal numeral of [n] gives [n] back. *)
Lemma parseInt_decimal (n : Z) :
  0 <= n -> Js.parseInt (Some (Js.decimal n)) = Some n.
Proof.
  intros Hn. destruct (decimal_digits n) as [Hne Hd]. unfold Js.parseInt.
  destruct (Js.decimal n) as [|c s] eqn:E; [congruence|].
  simpl in Hd. apply andb_true_iff in Hd as [Hc _]. rewrite Hc.
  rewrite <- E. unfold Js.decimal. rewrite digits_prefix_uint by lia.
  change (Nat.of_uint_acc ?u (Z.to_nat 0)) with (Nat.of_uint u).
  rewrite Unsigned.of_to. f_equal. lia.
Qed.

End DecimalFacts.

(** ** Ranges *)

Section RangeFacts.

Variables (a b : string) (va vb : Z).
Hypothesis a_digits : a <> "" /\ Js.all_chars Js.is_digit a = true.
Hypothesis b_digits : b <> "" /\ Js.all_chars Js.is_digit b = true.
Hypothesis a_value : Js.parseInt (Some a) = Some va.
Hypothesis b_value : Js.parseInt (Some b) = Some vb.

Lemma range_text_not_star : String.eqb (a +:+ "-" +:+ b) "*" = false.
Proof.
  clear a_value. apply String.eqb_neq. destruct a_digits as [Hne Hd].
  destruct a as [|c a']; [congruence|]. rewrite app_cons.
  simpl in Hd. apply andb_true_iff in Hd as [Hc _].
  apply is_digit_not in Hc as (_ & _ & Hc). congruence.
Qed.

Lemma range_text_not_single : Js.test re_single (a +:+ "-" +:+ b) = false.
Proof.
  destruct (Js.test re_single _) eqn:E; [|reflexivity].
  apply test_single_iff in E as [_ E].
  rewrite !all_chars_app in E. simpl in E.
  now rewrite andb_false_r in E.
Qed.

Lemma range_text_not_list : Js.test re_list (a +:+ "-" +:+ b) = false.
Proof.
  destruct (Js.test re_list _) eqn:E; [|reflexivity].
  apply test_list_has_comma in E.
  rewrite !has_char_app in E. simpl in E.
  rewrite (digits_no_char "," a), (digits_no_char "," b) in E;
    (reflexivity || tauto || discriminate).
Qed.

Lemma range_text_split : Js.split "-" (a +:+ "-" +:+ b) = [a; b].
Proof.
  change ("-" +:+ b) with (String "-" b).
  rewrite split_app, split_no_sep; [reflexivity | |];
    apply digits_no_char; (reflexivity || tauto).
Qed.

(** On the text [a-b] the simple forms apply the bound check of the range
    form and nothing else. *)
Lemma range_text_forms min max :
  simple_forms (a +:+ "-" +:+ b) min max =
  if (min <=? va) && (vb <=? max) && (va <? vb)
  then (Js.for_range va vb, true) else ([], false).
Proof.
  unfold simple_forms, wildcard_form. rewrite range_text_not_star.
  unfold single_form. rewrite range_text_not_single, andb_false_r.
  unfold range_form.
  rewrite test_range_intro by tauto. cbn [negb andb]. cbv zeta.
  rewrite range_text_split.
  change (Js.index [a; b] 0) with (Some a).
  change (Js.index [a; b] 1) with (Some b).
  rewrite a_value, b_value. reflexivity.
Qed.

Lemma range_text_parse min max :
  parseTimeExpression (a +:+ "-" +:+ b) min max =
  if (min <=? va) && (vb <=? max) && (va <? vb)
  then Ok (Some (Js.for_range va vb))
  else Throw (new_Error ("Invalid expression: " +:+ a +:+ "-" +:+ b)).
Proof.
  rewrite parseTimeExpression_eq, range_text_forms.
  destruct ((min <=? va) && (vb <=? max) && (va <? vb)).
  - cbn [negb andb]. cbv zeta.
    now rewrite normalise_sorted_id by apply for_range_sorted.
  - rewrite range_text_not_list. reflexivity.
Qed.

End RangeFacts.

(** C6. For all non-negative integers [A] and [B] with [min <= A],
    [B <= max] and [B > A], the parser returns exactly the inclusive range
    [A .. B] for the text "A-B", and it throws for the descending text
    "B-A" and for the text "A-A" of equal bounds.  The integers are those
    the code computes exactly: [max] is a safe integer, and the range is no
    longer than an array can be. *)
Theorem C6_range_accepted_only_ascending (A B min max : Z) :
  0 <= A -> min <= A -> B <= max -> A < B ->
  max <= MAX_SAFE_INTEGER -> B - A < MAX_ARRAY_LENGTH ->
  parseTimeExpression (Js.decimal A +:+ "-" +:+ Js.decimal B) min max
    = Ok (Some (Js.for_range A B)) /\
  (forall x, In x (Js.for_range A B) <-> A <= x <= B) /\
  StronglySorted Z.lt (Js.for_range A B) /\
  parseTimeExpression (Js.decimal B +:+ "-" +:+ Js.decimal A) min max
    = Throw (new_Error ("Invalid expression: " +:+
                        Js.decimal B +:+ "-" +:+ Js.decimal A)) /\
  parseTimeExpression (Js.decimal A +:+ "-" +:+ Js.decimal A) min max
    = Throw (new_Error ("Invalid expression: " +:+
                        Js.decimal A +:+ "-" +:+ Js.decimal A)).
Proof.
  intros HA Hmin Hmax Hlt _ _. assert (HB : 0 <= B) by lia.
  pose proof (decimal_digits A) as DA. pose proof (decimal_digits B) as DB.
  pose proof (parseInt_decimal A HA) as VA.
  pose proof (parseInt_decimal B HB) as VB.
  split; [|split; [|split; [|split]]].
  - rewrite (range_text_parse _ _ A B DA DB VA VB).
    replace ((min <=? A) && (B <=? max) && (A <? B)) with true;
      [reflexivity|].
    symmetry. rewrite !andb_true_iff, !Z.leb_le, Z.ltb_lt. lia.
  - intros x. apply for_range_In.
  - apply for_range_sorted.
  - rewrite (range_text_parse _ _ B A DB DA VB VA).
    replace (B <? A) with false by (symmetry; apply Z.ltb_ge; lia).
    now rewrite andb_false_r.
  - rewrite (range_text_parse _ _ A A DA DA VA VA).
    rewrite Z.ltb_irrefl. now rewrite andb_false_r.
Qed.

Lemma C6_witness :
  parseTimeExpression "3-6" 0 59 = Ok (Some [3; 4; 5; 6]) /\
  parseTimeExpression "6-3" 0 59 = Throw (new_Error "Invalid expression: 6-3") /\
  parseTimeExpression "3-3" 0 59 = Throw (new_Error "Invalid expression: 3-3").
Proof.
  destruct (C6_range_accepted_only_ascending 3 6 0 59)
    as (H1 & _ & _ & H2 & H3); try lia; try (vm_compute; congruence).
  split; [exact H1 | split; [exact H2 | exact H3]].
Defined.

(** ** The registry *)

Section RegistryFacts.

Lemma bind_Ok {A B : Type} (m : result A) (k : A -> result B) (b : B) :
  (m ≫= k) = Ok b -> exists a, m = Ok a /\ k a = Ok b.
Proof. destruct m as [a|e]; simpl; [eauto | discriminate]. Qed.

(** What a successful compilation has done. *)
Lemma compile_Ok task exp t :
  compile task exp = Ok t ->
  (5 <= length exp <= 6)%nat /\
  exists mn hr dy mo wd yr,
    parseTimeExpression (default "" (Js.index exp 0)) 0 59 = Ok mn /\
    parseTimeExpression (default "" (Js.index exp 1)) 0 23 = Ok hr /\
    parseTimeExpression (default "" (Js.index exp 2)) 1 31 = Ok dy /\
    parseTimeExpression (default "" (Js.index exp 3)) 1 12 = Ok mo /\
    parseTimeExpression (default "" (Js.index exp 4)) 0 6 = Ok wd /\
    (if 6 <=? Z.of_nat (length exp)
     then parseTimeExpression (default "" (Js.index exp 5)) 2020 2099
     else Ok None) = Ok yr /\
    t = StoredTask.mk (Task.name task) (Task.expression task)
          (Task.callBack task) (default "" (Task.comment task))
          (Task.maxRuns task) None 0
          (default [] mn) (default [] hr) (default [] dy)
          (default [] mo) (default [] wd) yr.
Proof.
  unfold compile.
  destruct ((6 <? Z.of_nat (length exp)) || (Z.of_nat (length exp) <? 5))
    eqn:Hlen; [discriminate|].
  apply orb_false_iff in Hlen as [H6 H5].
  apply Z.ltb_ge in H6, H5. intros H. split; [lia|].
  apply bind_Ok in H as (mn & Hmn & H).
  apply bind_Ok in H as (hr & Hhr & H).
  apply bind_Ok in H as (dy & Hdy & H).
  apply bind_Ok in H as (mo & Hmo & H).
  apply bind_Ok in H as (wd & Hwd & H).
  apply bind_Ok in H as (yr & Hyr & H).
  injection H as <-. exists mn, hr, dy, mo, wd, yr. auto 10.
Qed.

(** The sets of a compiled task are field sets of their domains, and none
    of them is empty. *)
Lemma compile_sets task exp t :
  compile task exp = Ok t -> compiled_sets t /\ nonempty_sets t.
Proof.
  intros H.
  apply compile_Ok in H
    as (_ & mn & hr & dy & mo & wd & yr &
        Hmn & Hhr & Hdy & Hmo & Hwd & Hyr & ->).
  apply parseTimeExpression_Ok in Hmn as (l0 & -> & S0 & N0).
  apply parseTimeExpression_Ok in Hhr as (l1 & -> & S1 & N1).
  apply parseTimeExpression_Ok in Hdy as (l2 & -> & S2 & N2).
  apply parseTimeExpression_Ok in Hmo as (l3 & -> & S3 & N3).
  apply parseTimeExpression_Ok in Hwd as (l4 & -> & S4 & N4).
  assert (Hy : match yr with
               | Some years => field_set 2020 2099 years /\ years <> []
               | None => True
               end).
  { destruct (6 <=? Z.of_nat (length exp)).
    - apply parseTimeExpression_Ok in Hyr as (l5 & -> & S5 & N5).
      split; [assumption | apply N5; lia].
    - injection Hyr as <-. exact I. }
  split.
  - unfold compiled_sets. cbn. tauto.
  - unfold nonempty_sets. cbn.
    repeat split; [apply N0|apply N1|apply N2|apply N3|apply N4]; lia.
Qed.

Lemma ran_sets d task :
  compiled_sets task /\ nonempty_sets task ->
  compiled_sets (StoredTask.ran d task) /\
  nonempty_sets (StoredTask.ran d task).
Proof. destruct task. exact (fun H => H). Qed.

Lemma removeTask_heap name st : heap (removeTask name st) = heap st.
Proof. unfold removeTask. destruct (-1 <? _); reflexivity. Qed.

Lemma start_heap d st : heap (start d st) = heap st.
Proof. unfold start, stop. destruct (runner st); reflexivity. Qed.

Lemma start_tasks d st : tasks (start d st) = tasks st.
Proof. unfold start, stop. destruct (runner st); reflexivity. Qed.

Lemma addTask_heap d task st :
  heap (snd (addTask d task st)) = heap st \/
  exists t, compile task (fields (Task.expression task)) = Ok t /\
            heap (snd (addTask d task st)) = heap st ++ [t].
Proof.
  unfold addTask.
  destruct (compile task _) as [t|e] eqn:E; [right | left; reflexivity].
  exists t. split; [reflexivity|].
  cbn. destruct (runner st); [reflexivity | apply start_heap].
Qed.

Lemma tick_heap d st : heap (fst (tick d st)) = heap st.
Proof. unfold tick. cbn. destruct (due _ _ _). reflexivity. Qed.

(** [execute] changes the store at most at [r], where it puts the object
    with the run recorded. *)
Lemma execute_heap d r st :
  heap (execute d r st) = heap st \/
  exists task, heap st !! r = Some task /\
    heap (execute d r st) = <[r := StoredTask.ran d task]> (heap st).
Proof.
  unfold execute. destruct (heap st !! r) as [task|] eqn:E; [right|now left].
  exists task. split; [reflexivity|].
  destruct (StoredTask.callBack _ _) as [|rej|err];
    repeat match goal with
    | |- context [if ?c then _ else _] => destruct c
    | |- context [match ?o with Some _ => _ | None => _ end] => destruct o
    end; unfold log; cbn [heap]; rewrite ?removeTask_heap; reflexivity.
Qed.

(** A property of task objects that compilation establishes and that
    recording a run keeps holds of every object of a reachable state. *)
Lemma reachable_heap (P : StoredTask.t -> Prop) :
  (forall task exp t, compile task exp = Ok t -> P t) ->
  (forall d t, P t -> P (StoredTask.ran d t)) ->
  forall st, reachable st -> Forall P (heap st).
Proof.
  intros Hc Hr st H.
  induction H as [|d task st _ IH|name st _ IH|d st _ IH|d r st _ IH].
  - constructor.
  - destruct (addTask_heap d task st) as [->|(t & Ht & ->)]; [assumption|].
    apply Forall_app. split; [assumption|]. repeat constructor. eauto.
  - now rewrite removeTask_heap.
  - now rewrite tick_heap.
  - destruct (execute_heap d r st) as [->|(task & Ht & ->)]; [assumption|].
    apply Forall_insert; [assumption|].
    apply Hr. rewrite Forall_lookup in IH. eauto.
Qed.

End RegistryFacts.

(** ** Field sets of the parser and of the registered tasks *)

(** C7. Whenever the parser succeeds, its result is strictly ascending,
    without duplicates, and inside [min .. max], whatever the order and
    the repetitions of the terms; hence every compiled set of every task
    object of a reachable state is such a set of its domain, and its year
    set, when it is not [null], is not empty. *)
Theorem C7_parse_result_is_field_set :
  (forall text min max v,
     parseTimeExpression text min max = Ok v ->
     exists l, v = Some l /\ field_set min max l) /\
  (forall st r task,
     reachable st -> heap st !! r = Some task -> compiled_sets task).
Proof.
  split.
  - intros text min max v H.
    apply parseTimeExpression_Ok in H as (l & -> & Hl & _). eauto.
  - intros st r task Hst Hr.
    assert (H : Forall (fun t => compiled_sets t /\ nonempty_sets t)
                       (heap st)).
    { apply reachable_heap; [|intros d t; apply ran_sets|assumption].
      intros tk exp t. apply compile_sets. }
    rewrite Forall_lookup in H. apply (H r task Hr).
Qed.

Lemma C7_witness :
  field_set 0 59 [1; 3; 5; 6; 7] /\
  compiled_sets
    (StoredTask.mk "job" "0,15,30,45 0-6 * * 1-4 2025" (fun _ => Returns) ""
       None None 0 [0; 15; 30; 45] [0; 1; 2; 3; 4; 5; 6]
       (Js.for_range 1 31) (Js.for_range 1 12) [1; 2; 3; 4] (Some [2025])).
Proof.
  destruct C7_parse_result_is_field_set as [Hparse Hreach]. split.
  - destruct (Hparse "7,5-7,3,1,3" 0 59 (Some [1; 3; 5; 6; 7]))
      as (l & [= <-] & Hl); [vm_compute; reflexivity | exact Hl].
  - apply (Hreach
      (snd (addTask (mkDate 2025 0 1 3 0 0 0)
              (Task.mk "job" "0,15,30,45 0-6 * * 1-4 2025"
                 (fun _ => Returns) None None) initial)) 0%nat).
    + apply reach_addTask, reach_initial.
    + vm_compute. reflexivity.
Defined.

(** C10. The parser never returns [null] and never returns an empty
    array: on every input it gets, that is for every text and each of the
    six domains that [addTask] passes (and the recursive call passes on),
    it either throws or returns a non-empty array; so it is for every
    domain with [min <= max].  Hence the five sets that are always present
    are not empty in any task object of a reachable state, and the [?? []]
    and [?? null] branches of [addTask] are never taken. *)
Theorem C10_parse_result_nonempty_on_nonempty_domain :
  (forall text min max, parseTimeExpression text min max <> Ok None) /\
  (forall text min max l,
     min <= max -> parseTimeExpression text min max = Ok (Some l) ->
     l <> []) /\
  (forall st r task,
     reachable st -> heap st !! r = Some task -> nonempty_sets task) /\
  (forall text min max,
     In (min, max) domains ->
     match parseTimeExpression text min max with
     | Throw _ => True
     | Ok (Some l) => l <> []
     | Ok None => False
     end).
Proof.
  assert (Hne : forall text min max l,
            min <= max -> parseTimeExpression text min max = Ok (Some l) ->
            l <> []).
  { intros text min max l Hle H.
    apply parseTimeExpression_Ok in H as (l' & [= <-] & _ & Hne). auto. }
  split; [|split; [|split]].
  - intros text min max H.
    apply parseTimeExpression_Ok in H as (l & [=] & _).
  - exact Hne.
  - intros st r task Hst Hr.
    assert (H : Forall (fun t => compiled_sets t /\ nonempty_sets t)
                       (heap st)).
    { apply reachable_heap; [|intros d t; apply ran_sets|assumption].
      intros tk exp t. apply compile_sets. }
    rewrite Forall_lookup in H. apply (H r task Hr).
  - intros text min max Hdom.
    assert (Hle : min <= max).
    { simpl in Hdom.
      repeat (destruct Hdom as [[= <- <-]|Hdom]; [lia|]). destruct Hdom. }
    destruct (parseTimeExpression text min max) as [[l|]|e] eqn:E.
    + now apply (Hne text min max).
    + apply parseTimeExpression_Ok in E as (l & [=] & _).
    + exact I.
Qed.

Lemma C10_witness :
  [2; 3; 9] <> [] /\
  nonempty_sets
    (StoredTask.mk "job" "0 3 1 1 2" (fun _ => Returns) "" None None 0
       [0] [3] [1] [1] [2] None) /\
  [2020; 2021] <> [].
Proof.
  destruct C10_parse_result_nonempty_on_nonempty_domain
    as (_ & Hparse & Hreach & Hdom). split; [|split].
  - apply (Hparse "9,2-3" 0 59); [lia | vm_compute; reflexivity].
  - apply (Hreach
      (snd (addTask (mkDate 2025 0 1 3 0 0 0)
              (Task.mk "job" "0 3 1 1 2" (fun _ => Returns) None None)
              initial)) 0%nat).
    + apply reach_addTask, reach_initial.
    + vm_compute. reflexivity.
  - apply (Hdom "2020-2021" 2020 2099). simpl. tauto.
Defined.

(** ** Listing the tasks *)

Section ListingFacts.

Lemma getTasks_ext (hp hp' : list StoredTask.t) (l : list ref) :
  Forall (fun r => hp' !! r = hp !! r) l ->
  omap (fun r => info_of <$> hp' !! r) l =
  omap (fun r => info_of <$> hp !! r) l.
Proof.
  induction 1 as [|r l Hr _ IH]; csimpl; [reflexivity|].
  now rewrite Hr, IH.
Qed.

Lemma getTasks_length (hp : list StoredTask.t) (l : list ref) :
  Forall (fun r => (r < length hp)%nat) l ->
  length (omap (fun r => info_of <$> hp !! r) l) = length l.
Proof.
  induction 1 as [|r l Hr _ IH]; csimpl; [reflexivity|].
  destruct (lookup_lt_is_Some_2 hp r Hr) as [o ->]. csimpl. now rewrite IH.
Qed.

(** Pushing a new object adds its entry at the end of the listing. *)
Lemma getTasks_push o st :
  refs_valid st -> getTasks (push o st) = getTasks st ++ [info_of o].
Proof.
  intros Hv. unfold getTasks, push. cbn [heap tasks].
  rewrite omap_app. f_equal.
  - apply getTasks_ext. eapply List.Forall_impl; [|exact Hv].
    intros r Hr. now apply lookup_app_l.
  - simpl. now rewrite list_lookup_middle.
Qed.

Lemma refs_valid_push o st : refs_valid st -> refs_valid (push o st).
Proof.
  unfold refs_valid, push. cbn [heap tasks]. intros Hv.
  rewrite length_app. apply Forall_app. split.
  - eapply List.Forall_impl; [|exact Hv]. cbv beta. simpl. lia.
  - repeat constructor. simpl. lia.
Qed.

(** What a successful [addTask] has done to the registry. *)
Lemma addTask_Ok d task st st' :
  addTask d task st = (Ok (), st') ->
  exists t,
    compile task (fields (Task.expression task)) = Ok t /\
    heap st' = heap (push t st) /\ tasks st' = tasks (push t st) /\
    info_of t = info_new task.
Proof.
  unfold addTask.
  destruct (compile task _) as [t|e] eqn:E; [|discriminate].
  intros [= <-]. exists t. split; [reflexivity|].
  assert (Hi : info_of t = info_new task).
  { apply compile_Ok in E as (_ & mn & hr & dy & mo & wd & yr & H).
    destruct H as (_ & _ & _ & _ & _ & _ & ->). reflexivity. }
  cbn [runner push].
  destruct (runner st); rewrite ?start_heap, ?start_tasks; auto.
Qed.

Lemma addTask_Throw d task st e st' :
  addTask d task st = (Throw e, st') -> st' = st.
Proof.
  unfold addTask. destruct (compile task _); [discriminate|].
  now intros [= _ <-].
Qed.

(** The listing depends on the six listed properties of the task objects
    only: neither a callback nor a compiled set can change it. *)
Lemma getTasks_info_only st st' :
  tasks st' = tasks st ->
  (forall r, info_of <$> heap st' !! r = info_of <$> heap st !! r) ->
  getTasks st' = getTasks st.
Proof.
  unfold getTasks. intros -> H. induction (tasks st) as [|r l IH]; csimpl;
    [reflexivity|].
  now rewrite H, IH.
Qed.

Lemma getTasks_heap_tasks st st' :
  heap st' = heap st -> tasks st' = tasks st -> getTasks st' = getTasks st.
Proof. unfold getTasks. now intros -> ->. Qed.

Lemma refs_valid_heap_tasks st st' :
  heap st' = heap st -> tasks st' = tasks st ->
  refs_valid st -> refs_valid st'.
Proof. unfold refs_valid. now intros -> ->. Qed.

Lemma removeTask_refs_valid name st :
  refs_valid st -> refs_valid (removeTask name st).
Proof.
  unfold removeTask, refs_valid.
  destruct (-1 <? _); [|auto]. cbn [heap tasks set_tasks].
  apply Forall_delete.
Qed.

(** In a reachable state the registry holds references to task objects
    only. *)
Lemma reachable_refs_valid st : reachable st -> refs_valid st.
Proof.
  induction 1 as [|d task st _ IH|name st _ IH|d st _ IH|d r st _ IH].
  - constructor.
  - destruct (addTask d task st) as [[[]|e] st'] eqn:E; cbn [snd].
    + apply addTask_Ok in E as (t & _ & Hh & Ht & _).
      apply (refs_valid_heap_tasks (push t st)); auto.
      now apply refs_valid_push.
    + apply addTask_Throw in E as ->. assumption.
  - now apply removeTask_refs_valid.
  - unfold tick. cbn. destruct (due _ _ _). exact IH.
  - unfold execute. destruct (heap st !! r) as [task|]; [|assumption].
    assert (Hw : refs_valid (store (StoredTask.ran d task) r st)).
    { unfold refs_valid, store. cbn [heap tasks].
      now rewrite length_insert. }
    destruct (StoredTask.callBack _ _) as [|rej|err];
      repeat match goal with
      | |- context [if ?c then _ else _] => destruct c
      | |- context [match ?o with Some _ => _ | None => _ end] => destruct o
      end;
      try (apply (refs_valid_heap_tasks
                    (removeTask (StoredTask.name (StoredTask.ran d task))
                       (store (StoredTask.ran d task) r st)));
           [reflexivity | reflexivity | now apply removeTask_refs_valid]);
      try (apply (refs_valid_heap_tasks
                    (store (StoredTask.ran d task) r st));
           [reflexivity | reflexivity | exact Hw]);
      first [exact Hw | now apply removeTask_refs_valid].
Qed.

Lemma addTasks_listing calls : forall st st',
  refs_valid st -> addTasks calls st = (Ok (), st') ->
  refs_valid st' /\
  getTasks st' = getTasks st ++ map (fun c => info_new (snd c)) calls.
Proof.
  induction calls as [|[d task] calls IH]; intros st st' Hv H; simpl in H.
  - injection H as <-. simpl. now rewrite app_nil_r.
  - destruct (addTask d task st) as [[[]|e] st1] eqn:E; [|discriminate].
    apply addTask_Ok in E as (t & _ & Hh & Ht & Hi).
    assert (Hv1 : refs_valid st1).
    { apply (refs_valid_heap_tasks (push t st)); auto.
      now apply refs_valid_push. }
    destruct (IH st1 st' Hv1 H) as [Hv' Hg]. split; [assumption|].
    rewrite Hg, (getTasks_heap_tasks (push t st) st1), getTasks_push; auto.
    rewrite Hi, <- app_assoc. reflexivity.
Qed.

End ListingFacts.

(** C9. After any sequence of [addTask] calls that all succeed, [getTasks]
    lists what it listed before followed by one entry for each added task,
    in the order of the calls; the entry carries the name, the expression
    exactly as it was passed (nothing of its white space is changed), the
    comment, [lastRun], the run count and [maxRuns], and an entry has no
    other field; the listing has one entry for each registered task, and
    it is the same for any store whose objects agree on these six
    properties, whatever their callbacks and compiled sets. *)
Theorem C9_getTasks_lists_tasks_in_order calls st st' :
  reachable st -> addTasks calls st = (Ok (), st') ->
  getTasks st' = getTasks st ++ map (fun c => info_new (snd c)) calls /\
  map TaskInfo.expression (getTasks st') =
    map TaskInfo.expression (getTasks st) ++
    map (fun c => Task.expression (snd c)) calls /\
  length (getTasks st') = length (tasks st') /\
  (forall st'',
     tasks st'' = tasks st' ->
     (forall r, info_of <$> heap st'' !! r = info_of <$> heap st' !! r) ->
     getTasks st'' = getTasks st').
Proof.
  intros Hst H.
  destruct (addTasks_listing calls st st' (reachable_refs_valid st Hst) H)
    as [Hv Hg].
  split; [assumption|]. split; [|split].
  - rewrite Hg, map_app, map_map. reflexivity.
  - apply getTasks_length, Hv.
  - intros st''. apply getTasks_info_only.
Qed.

Lemma C9_witness :
  getTasks
    (snd (addTasks
            [ (mkDate 2025 0 1 3 0 0 0,
               Task.mk "early" "  0   3 1 1 2 " (fun _ => Returns)
                 None (Some 3));
              (mkDate 2025 0 1 3 0 0 30,
               Task.mk "yearly" "* * * * * 2025" (fun _ => Throws "boom")
                 (Some "all of 2025") None) ]
            initial)) =
  [ TaskInfo.mk "early" "  0   3 1 1 2 " "" None 0 (Some 3);
    TaskInfo.mk "yearly" "* * * * * 2025" "all of 2025" None 0 None ].
Proof.
  set (calls :=
    [ (mkDate 2025 0 1 3 0 0 0,
       Task.mk "early" "  0   3 1 1 2 " (fun _ => Returns) None (Some 3));
      (mkDate 2025 0 1 3 0 0 30,
       Task.mk "yearly" "* * * * * 2025" (fun _ => Throws "boom")
         (Some "all of 2025") None) ]).
  assert (H : addTasks calls initial = (Ok (), snd (addTasks calls initial)))
    by (vm_compute; reflexivity).
  exact (proj1 (C9_getTasks_lists_tasks_in_order calls initial _
                  reach_initial H)).
Defined.

(** ** Failing compilations *)

Section CompilationFacts.

(** The message that the [catch] block of [addTask] gives to an error
    whose message is exactly "Invalid expression". *)
Lemma relabel_count task :
  relabel task (new_Error "Invalid expression") =
  mkError "SyntaxError"
    ("Invalid cron expression '" +:+ Task.expression task +:+
     "' for task '" +:+ Task.name task +:+ "'").
Proof. reflexivity. Qed.

(** An error of the parser keeps its own message in the [catch] block. *)
Lemma relabel_parser task text :
  relabel task (new_Error ("Invalid expression: " +:+ text)) =
  new_Error ("Invalid expression: " +:+ text).
Proof. reflexivity. Qed.

Lemma year_out_of_domain y :
  y = "2019" \/ y = "2100" ->
  parseTimeExpression y 2020 2099 =
  Throw (new_Error ("Invalid expression: " +:+ y)).
Proof. intros [->| ->]; reflexivity. Qed.

End CompilationFacts.

(** C8. [addTask] throws, and registers nothing, whenever the expression,
    its runs of spaces collapsed and its ends trimmed, splits on spaces
    into fewer than 5 or more than 6 fields; the error is the relabelled
    one that carries the expression and the task name.  With six fields
    the sixth is parsed with the domain 2020 .. 2099 and its result is the
    year set, so that "2019" and "2100" make the call throw; with five
    fields the year set is [null]. *)
Theorem C8_field_count_and_year_domain :
  (forall d task st,
     (length (fields (Task.expression task)) < 5 \/
      6 < length (fields (Task.expression task)))%nat ->
     addTask d task st =
       (Throw (mkError "SyntaxError"
                 ("Invalid cron expression '" +:+ Task.expression task +:+
                  "' for task '" +:+ Task.name task +:+ "'")), st)) /\
  (forall d task st st' f0 f1 f2 f3 f4 y,
     fields (Task.expression task) = [f0; f1; f2; f3; f4; y] ->
     addTask d task st = (Ok (), st') ->
     exists t years,
       heap st' = heap st ++ [t] /\
       tasks st' = tasks st ++ [length (heap st)] /\
       parseTimeExpression y 2020 2099 = Ok (Some years) /\
       StoredTask.year t = Some years) /\
  (forall d task st f0 f1 f2 f3 f4 y,
     fields (Task.expression task) = [f0; f1; f2; f3; f4; y] ->
     y = "2019" \/ y = "2100" ->
     exists e, addTask d task st = (Throw e, st)) /\
  (forall d task st st' f0 f1 f2 f3 f4,
     fields (Task.expression task) = [f0; f1; f2; f3; f4] ->
     addTask d task st = (Ok (), st') ->
     exists t,
       heap st' = heap st ++ [t] /\
       tasks st' = tasks st ++ [length (heap st)] /\
       StoredTask.year t = None).
Proof.
  split; [|split; [|split]].
  - intros d task st Hn. unfold addTask, compile.
    replace ((6 <? Z.of_nat (length (fields (Task.expression task))))
             || (Z.of_nat (length (fields (Task.expression task))) <? 5))
      with true; [reflexivity|].
    symmetry. apply orb_true_iff. rewrite !Z.ltb_lt. lia.
  - intros d task st st' f0 f1 f2 f3 f4 y Hf H.
    apply addTask_Ok in H as (t & Hc & Hh & Ht & _). rewrite Hf in Hc.
    apply compile_Ok in Hc
      as (_ & mn & hr & dy & mo & wd & yr & _ & _ & _ & _ & _ & Hy & ->).
    change (default "" (Js.index [f0; f1; f2; f3; f4; y] 5)) with y in Hy.
    cbn [length Z.of_nat Z.leb] in Hy. simpl (6 <=? _) in Hy. cbv iota in Hy.
    destruct (parseTimeExpression_Ok _ _ _ _ Hy) as (years & -> & _).
    exists (StoredTask.mk (Task.name task) (Task.expression task)
              (Task.callBack task) (default "" (Task.comment task))
              (Task.maxRuns task) None 0
              (default [] mn) (default [] hr) (default [] dy)
              (default [] mo) (default [] wd) (Some years)), years.
    auto.
  - intros d task st f0 f1 f2 f3 f4 y Hf Hy.
    destruct (addTask d task st) as [[[]|e] st'] eqn:E.
    + exfalso. apply addTask_Ok in E as (t & Hc & _). rewrite Hf in Hc.
      apply compile_Ok in Hc
        as (_ & mn & hr & dy & mo & wd & yr & _ & _ & _ & _ & _ & Hp & _).
      change (default "" (Js.index [f0; f1; f2; f3; f4; y] 5)) with y in Hp.
      simpl (6 <=? _) in Hp. cbv iota in Hp.
      rewrite (year_out_of_domain y Hy) in Hp. discriminate.
    + apply addTask_Throw in E as E'. subst st'. eauto.
  - intros d task st st' f0 f1 f2 f3 f4 Hf H.
    apply addTask_Ok in H as (t & Hc & Hh & Ht & _). rewrite Hf in Hc.
    apply compile_Ok in Hc
      as (_ & mn & hr & dy & mo & wd & yr & _ & _ & _ & _ & _ & Hy & ->).
    simpl (6 <=? _) in Hy. cbv iota in Hy. injection Hy as <-.
    eexists. split; [exact Hh | split; [exact Ht | reflexivity]].
Qed.

Lemma C8_witness :
  addTask (mkDate 2025 0 1 3 0 0 0)
    (Task.mk "short" " 0  3 1   1 " (fun _ => Returns) None None) initial =
    (Throw (mkError "SyntaxError"
              "Invalid cron expression ' 0  3 1   1 ' for task 'short'"),
     initial) /\
  (exists e,
     addTask (mkDate 2025 0 1 3 0 0 0)
       (Task.mk "past" "* * * * * 2019" (fun _ => Returns) None None)
       initial = (Throw e, initial)) /\
  (exists t,
     heap (snd (addTask (mkDate 2025 0 1 3 0 0 0)
                  (Task.mk "now" "0 3 1 1 2 2025" (fun _ => Returns)
                     None None) initial)) = [t] /\
     StoredTask.year t = Some [2025]) /\
  (exists t,
     heap (snd (addTask (mkDate 2025 0 1 3 0 0 0)
                  (Task.mk "any" "0 3 1 1 2" (fun _ => Returns)
                     None None) initial)) = [t] /\
     StoredTask.year t = None).
Proof.
  destruct C8_field_count_and_year_domain as (Hcount & Hsix & Hyear & Hfive).
  split; [|split; [|split]].
  - apply (Hcount _ (Task.mk "short" " 0  3 1   1 " (fun _ => Returns)
                       None None)).
    vm_compute. lia.
  - apply (Hyear _ (Task.mk "past" "* * * * * 2019" (fun _ => Returns)
                      None None) initial "*" "*" "*" "*" "*" "2019");
      [reflexivity | now left].
  - destruct (Hsix (mkDate 2025 0 1 3 0 0 0)
                (Task.mk "now" "0 3 1 1 2 2025" (fun _ => Returns)
                   None None) initial
                (snd (addTask (mkDate 2025 0 1 3 0 0 0)
                        (Task.mk "now" "0 3 1 1 2 2025" (fun _ => Returns)
                           None None) initial))
                "0" "3" "1" "1" "2" "2025" eq_refl eq_refl)
      as (t & years & Hh & _ & Hp & Hy).
    exists t. split; [exact Hh|].
    rewrite Hy. f_equal. vm_compute in Hp. congruence.
  - destruct (Hfive (mkDate 2025 0 1 3 0 0 0)
                (Task.mk "any" "0 3 1 1 2" (fun _ => Returns)
                   None None) initial
                (snd (addTask (mkDate 2025 0 1 3 0 0 0)
                        (Task.mk "any" "0 3 1 1 2" (fun _ => Returns)
                           None None) initial))
                "0" "3" "1" "1" "2" eq_refl eq_refl)
      as (t & Hh & _ & Hy).
    exists t. split; [exact Hh | exact Hy].
Defined.

Section ParserErrors.

(** The parser throws one kind of error: its message is the fixed prefix
    followed by the text it was given. *)
Lemma parseTimeExpression_Throw s min max e :
  parseTimeExpression s min max = Throw e ->
  e = new_Error ("Invalid expression: " +:+ s).
Proof.
  rewrite parseTimeExpression_eq.
  destruct (simple_forms s min max) as [retVal ok].
  destruct (negb ok && Js.test re_list s).
  - destruct (every_term _ _ _) as [[rv b]|] eqn:E.
    + destruct b; [discriminate | now intros [= <-]].
    + exfalso. revert E. apply every_term_Some.
      apply List.Forall_forall. discriminate.
  - destruct ok; [discriminate | now intros [= <-]].
Qed.

(** When the number of fields is right and [addTask] throws, the error is
    the one of the parser for a field: the [catch] block compares the
    message with "Invalid expression", which no message of the parser
    equals, and leaves the error as it is. *)
Lemma addTask_field_error d task st e st' :
  (5 <= length (fields (Task.expression task)) <= 6)%nat ->
  addTask d task st = (Throw e, st') ->
  exists text, e = new_Error ("Invalid expression: " +:+ text).
Proof.
  intros Hn. unfold addTask, compile.
  replace ((6 <? Z.of_nat (length (fields (Task.expression task))))
           || (Z.of_nat (length (fields (Task.expression task))) <? 5))
    with false.
  2:{ symmetry. apply orb_false_iff. rewrite !Z.ltb_ge. lia. }
  repeat match goal with
  | |- context [mbind _ (parseTimeExpression ?s ?lo ?hi)] =>
      let E := fresh "E" in
      destruct (parseTimeExpression s lo hi) as [?|?] eqn:E; cbn [mbind result_bind];
      [|apply parseTimeExpression_Throw in E; subst;
        intros [= <- _]; eexists; reflexivity]
  end.
  destruct (6 <=? _).
  - destruct (parseTimeExpression _ 2020 2099) as [?|?] eqn:Ey;
      cbn [mbind result_bind]; [discriminate|].
    apply parseTimeExpression_Throw in Ey. subst.
    intros [= <- _]. eexists. reflexivity.
  - cbn [mbind result_bind]. discriminate.
Qed.

End ParserErrors.

(** C5, on the code.  For the expression "61 * * * *", which has five
    fields and a first field outside 0 .. 59, [addTask] throws and
    registers nothing, but the error is the one of the parser, with the
    name [Error] and a message that holds the failing field only: neither
    the expression nor the task name is in it. *)
Theorem C5_field_error_message_is_the_parser_s d callBack comment maxRuns st :
  addTask d (Task.mk "backup" "61 * * * *" callBack comment maxRuns) st =
  (Throw (mkError "Error" "Invalid expression: 61"), st).
Proof. reflexivity. Qed.

(** ** Membership *)

Section MembershipFacts.

(** Below ten elements the answer is membership. *)
Lemma existsInArray_short arr v :
  (length arr < 10)%nat -> existsInArray arr v = true <-> In v arr.
Proof.
  intros H. unfold existsInArray.
  replace (Z.of_nat (length arr) <? 10) with true
    by (symmetry; apply Z.ltb_lt; lia).
  apply includes_In.
Qed.

Lemma index_first (x : Z) l : Js.index (x :: l) 0 = Some x.
Proof. reflexivity. Qed.

Lemma index_last (x : Z) l :
  l <> [] ->
  exists y, In y l /\
    Js.index (x :: l) (Z.of_nat (length (x :: l)) - 1) = Some y.
Proof.
  intros Hl. unfold Js.index.
  replace (Z.of_nat (length (x :: l)) - 1 <? 0) with false
    by (symmetry; apply Z.ltb_ge; simpl; lia).
  replace (Z.to_nat (Z.of_nat (length (x :: l)) - 1)) with (S (pred (length l))).
  2:{ destruct l; [congruence|]. simpl. lia. }
  simpl. destruct (lookup_lt_is_Some_2 l (pred (length l))) as [y Hy].
  { destruct l; [congruence|]. simpl. lia. }
  exists y. split; [|assumption].
  apply list_elem_of_In. eapply list_elem_of_lookup_2. exact Hy.
Qed.

(** From ten elements on, the guard before the loop returns [false] for
    every value when the array is ascending: it rejects a value above the
    first element or below the last one, and no value is at most the first
    element and at least the last. *)
Lemma existsInArray_long arr v :
  StronglySorted Z.lt arr -> (10 <= length arr)%nat ->
  existsInArray arr v = false.
Proof.
  intros Hs Hn. unfold existsInArray.
  replace (Z.of_nat (length arr) <? 10) with false
    by (symmetry; apply Z.ltb_ge; lia).
  destruct arr as [|x l]; [simpl in Hn; lia|].
  destruct (index_last x l) as (y & Hy & ->).
  { destruct l; [simpl in Hn; lia | discriminate]. }
  rewrite index_first. cbn [gt_num].
  inversion Hs as [|? ? _ Hx]; subst.
  rewrite List.Forall_forall in Hx. apply Hx in Hy.
  destruct (x <? v) eqn:E1; [reflexivity|].
  destruct (v <? y) eqn:E2; [reflexivity|].
  apply Z.ltb_ge in E1, E2. lia.
Qed.

End MembershipFacts.

(** The loop itself is right: what goes wrong from ten elements on is the
    guard before it. *)

Section LoopFacts.

Lemma sorted_lookup_lt (arr : list Z) : StronglySorted Z.lt arr ->
  forall i j x y, (i < j)%nat -> arr !! i = Some x -> arr !! j = Some y ->
  x < y.
Proof.
  induction 1 as [|a l Hl IH Ha]; intros i j x y Hij Hi Hj.
  - discriminate.
  - destruct j as [|j]; [lia|]. simpl in Hj.
    destruct i as [|i]; simpl in Hi.
    + injection Hi as <-. rewrite List.Forall_forall in Ha. apply Ha.
      apply list_elem_of_In. eapply list_elem_of_lookup_2. exact Hj.
    + apply (IH i j); auto. lia.
Qed.

Lemma sorted_index_lt (arr : list Z) i j x y :
  StronglySorted Z.lt arr -> i < j ->
  Js.index arr i = Some x -> Js.index arr j = Some y -> x < y.
Proof.
  unfold Js.index. intros Hs Hij.
  destruct (i <? 0) eqn:Ei; [discriminate|].
  destruct (j <? 0) eqn:Ej; [discriminate|].
  apply Z.ltb_ge in Ei, Ej. apply sorted_lookup_lt; [assumption | lia].
Qed.

Lemma index_in_range (arr : list Z) i :
  0 <= i < Z.of_nat (length arr) -> exists x, Js.index arr i = Some x.
Proof.
  intros H. unfold Js.index.
  replace (i <? 0) with false by (symmetry; apply Z.ltb_ge; lia).
  apply lookup_lt_is_Some_2. lia.
Qed.

(** On an ascending array the loop finds the value exactly when the
    window holds it. *)
Lemma search_loop_spec arr value minIdx maxIdx :
  StronglySorted Z.lt arr ->
  0 <= minIdx -> maxIdx < Z.of_nat (length arr) ->
  search_loop arr value minIdx maxIdx = true <->
  exists i, minIdx <= i <= maxIdx /\ Js.index arr i = Some value.
Proof.
  intros Hs. funelim (search_loop arr value minIdx maxIdx).
  - intros Hlo Hhi.
    pose proof (Z.div_mod (minIdx + maxIdx) 2 ltac:(lia)) as Hd.
    pose proof (Z.mod_pos_bound (minIdx + maxIdx) 2 ltac:(lia)) as Hm.
    set (mid := (minIdx + maxIdx) / 2) in *.
    destruct (index_in_range arr mid ltac:(lia)) as [x Hx].
    unfold testResult_of. rewrite Hx. cbn [fmap option_fmap option_map].
    destruct (value - x <? 0) eqn:E1; [|destruct (0 <? value - x) eqn:E2].
    + apply Z.ltb_lt in E1.
      rewrite (H 0 Hs Hlo ltac:(lia)). split.
      * intros (i & Hi & Hv). exists i. split; [lia | assumption].
      * intros (i & Hi & Hv). exists i. split; [|assumption].
        destruct (Z_lt_dec i mid) as [|Hge]; [lia|].
        destruct (Z.eq_dec i mid) as [->|Hne].
        -- rewrite Hx in Hv. injection Hv as ->. lia.
        -- pose proof (sorted_index_lt arr mid i x value Hs ltac:(lia) Hx Hv).
           lia.
    + apply Z.ltb_lt in E2.
      rewrite (H0 0 Hs ltac:(lia) Hhi). split.
      * intros (i & Hi & Hv). exists i. split; [lia | assumption].
      * intros (i & Hi & Hv). exists i. split; [|assumption].
        destruct (Z_lt_dec mid i) as [|Hge]; [lia|].
        destruct (Z.eq_dec i mid) as [->|Hne].
        -- rewrite Hx in Hv. injection Hv as ->. lia.
        -- pose proof (sorted_index_lt arr i mid value x Hs ltac:(lia) Hv Hx).
           lia.
    + apply Z.ltb_ge in E1, E2. assert (value = x) by lia. subst x.
      split; [|reflexivity]. intros _. exists mid. split; [lia | assumption].
  - intros _ _. split; [discriminate|]. intros (i & Hi & _). lia.
Qed.

End LoopFacts.

(** C1, on the code.  The array 0 .. 9 is ascending and without
    duplicates, it has ten elements, and 5 is one of them; [existsInArray]
    answers [false].  With the nine elements 0 .. 8 it answers [true]. *)
Theorem C1_existsInArray_misses_member_of_ten :
  StronglySorted Z.lt [0; 1; 2; 3; 4; 5; 6; 7; 8; 9] /\
  In 5 [0; 1; 2; 3; 4; 5; 6; 7; 8; 9] /\
  existsInArray [0; 1; 2; 3; 4; 5; 6; 7; 8; 9] 5 = false /\
  existsInArray [0; 1; 2; 3; 4; 5; 6; 7; 8] 5 = true.
Proof.
  split; [apply (for_range_sorted 0 9)|].
  split; [simpl; tauto|].
  split; reflexivity.
Qed.

(** ** The tick *)

Section TickFacts.

(** The task compiled from the expression of the scenario. *)
Lemma scenario_compiled d name callBack comment maxRuns :
  heap (snd (addTask d
               (Task.mk name "0,15,30,45 0-6 * * 1-4" callBack comment
                  maxRuns) initial)) =
  [ StoredTask.mk name "0,15,30,45 0-6 * * 1-4" callBack
      (default "" comment) maxRuns None 0
      [0; 15; 30; 45] (Js.for_range 0 6) (Js.for_range 1 31)
      (Js.for_range 1 12) [1; 2; 3; 4] None ].
Proof. reflexivity. Qed.

(** One entry of the snapshot that fails makes the task not due. *)
Lemma runTask_false task now entry :
  In entry now -> entry_ok task entry = false -> runTask task now = false.
Proof.
  intros Hin Hno. destruct (runTask task now) eqn:E; [|reflexivity].
  unfold runTask in E. rewrite forallb_forall in E.
  specialize (E entry Hin). congruence.
Qed.

End TickFacts.

(** C2, on the code.  For the task compiled from
    "0,15,30,45 0-6 * * 1-4" the predicate of [tick] is [false] at minute
    0, hour 3, weekday 2, whatever the day, the month and the year: the
    day set has 31 elements and the month set 12, and [existsInArray]
    finds nothing in an ascending array of ten elements or more.  It is
    also [false] at minute 5 and at weekday 6. *)
Theorem C2_scenario_task_is_never_due
    (name : string) (callBack : unit -> Outcome) (comment : option string)
    (maxRuns : option Z) (dy mo yr : Z) :
  exists task,
    compile (Task.mk name "0,15,30,45 0-6 * * 1-4" callBack comment maxRuns)
      (fields "0,15,30,45 0-6 * * 1-4") = Ok task /\
    StoredTask.year task = None /\
    runTask task [(Kmin, 0); (Khour, 3); (Kday, dy); (Kmonth, mo);
                  (Kweekday, 2); (Kyear, yr)] = false /\
    runTask task [(Kmin, 5); (Khour, 3); (Kday, dy); (Kmonth, mo);
                  (Kweekday, 2); (Kyear, yr)] = false /\
    runTask task [(Kmin, 0); (Khour, 3); (Kday, dy); (Kmonth, mo);
                  (Kweekday, 6); (Kyear, yr)] = false.
Proof.
  eexists. split; [reflexivity|]. split; [reflexivity|].
  assert (Hday : existsInArray (Js.for_range 1 31) dy = false).
  { apply existsInArray_long; [apply for_range_sorted | simpl; lia]. }
  split; [|split];
    apply (runTask_false _ _ (Kday, dy)); (exact Hday || (simpl; tauto)).
Qed.

(** C3, on the code.  The minute of the snapshot is 1 when minute plus
    second exceeds 50 and 0 otherwise; at 03:30:00 it is 0 and at 03:30:45
    it is 1, where the current minute is 30. *)
Theorem C3_snapshot_minute_is_zero_or_one :
  (forall d,
     head (now_of d) =
     Some (Kmin, if 50 <? getMinutes d + getSeconds d then 1 else 0)) /\
  head (now_of (mkDate 2025 0 1 3 3 30 0)) = Some (Kmin, 0) /\
  head (now_of (mkDate 2025 0 1 3 3 30 45)) = Some (Kmin, 1).
Proof. repeat split. Qed.

(** ** Deferred executions *)

Section ExecutionFacts.

(** Every execution records the run in the task object, whatever the
    callback does. *)
Lemma execute_counts d r st task :
  heap st !! r = Some task ->
  heap (execute d r st) !! r = Some (StoredTask.ran d task) /\
  StoredTask.countRuns (StoredTask.ran d task) =
    StoredTask.countRuns task + 1.
Proof.
  intros Hr. split; [|destruct task; reflexivity].
  destruct (execute_heap d r st) as [E|(task' & Ht & ->)].
  - exfalso. revert E. unfold execute. rewrite Hr.
    assert (Hne : heap (store (StoredTask.ran d task) r st) <> heap st).
    { unfold store. cbn [heap]. intros E.
      assert (H : (<[r:=StoredTask.ran d task]> (heap st)) !! r = Some task)
        by now rewrite E.
      rewrite list_lookup_insert_eq in H
        by (eapply lookup_lt_Some; exact Hr).
      injection H as H. apply (f_equal StoredTask.countRuns) in H.
      destruct task. cbn in H. lia. }
    destruct (StoredTask.callBack _ _) as [|rej|err];
      repeat match goal with
      | |- context [if ?c then _ else _] => destruct c
      | |- context [match ?o with Some _ => _ | None => _ end] => destruct o
      end; unfold log; cbn [heap]; rewrite ?removeTask_heap; exact Hne.
  - rewrite Hr in Ht. injection Ht as <-.
    apply list_lookup_insert_eq. eapply lookup_lt_Some. exact Hr.
Qed.

(** An execution whose callback throws leaves the registry as it is: the
    test of [maxRuns] comes after the call in the [try] block. *)
Lemma execute_throw_keeps_tasks d r st task err :
  heap st !! r = Some task ->
  StoredTask.callBack (StoredTask.ran d task) () = Throws err ->
  tasks (execute d r st) = tasks st.
Proof. intros Hr Hc. unfold execute. rewrite Hr, Hc. reflexivity. Qed.

End ExecutionFacts.

(** C4, on the code.  A task with [maxRuns] 1 whose callback throws is due
    on Sunday 1 June 2025 at 00:00:00 and [tick] schedules its execution;
    the execution counts the run, and the task is still registered with a
    run count of 1.  The same task with a callback that returns a rejected
    promise, or that returns normally, is removed by its execution. *)
Theorem C4_throwing_callback_is_counted_but_not_removed :
  let d := mkDate 2025 5 1 0 0 0 0 in
  let run callBack :=
    let st0 :=
      snd (addTask d (Task.mk "job" "0 0 1 6 0" callBack None (Some 1))
             initial) in
    let '(st1, rs) := tick d st0 in
    (rs, getTasks (fold_left (fun st r => execute d r st) rs st1)) in
  run (fun _ => Throws "boom") =
    ([0%nat], [TaskInfo.mk "job" "0 0 1 6 0" "" (Some d) 1 (Some 1)]) /\
  run (fun _ => ReturnsPromise (Some "boom")) = ([0%nat], []) /\
  run (fun _ => Returns) = ([0%nat], []).
Proof. repeat split. Qed.

(** * Further properties of the code *)

(** ** The forms of the field parser *)

Section FormFacts.

Lemma Matches_classes p r s :
  classes_within p r -> Js.Matches r s -> Js.all_chars p s = true.
Proof.
  intros Hr H. induction H as
    [ | q c Hq | r1 r2 s1 s2 H1 IH1 H2 IH2 | r1 r2 s H1 IH1
    | r1 r2 s H2 IH2 | r | r s1 s2 H1 IH1 H2 IH2 ]; simpl in Hr.
  - reflexivity.
  - simpl. now rewrite (Hr c Hq).
  - rewrite all_chars_app, IH1, IH2; tauto.
  - apply IH1. tauto.
  - apply IH2. tauto.
  - reflexivity.
  - rewrite all_chars_app, IH1, IH2; auto.
Qed.






(** A string that matches the range pattern holds a hyphen. *)
Lemma test_range_has_hyphen s :
  Js.test re_range s = true -> Js.has_char "-" s = true.
Proof.
  intros H. apply test_Matches in H. unfold re_range in H.
  apply Matches_Seq_inv in H as (s1 & s2 & -> & _ & H).
  apply Matches_Seq_inv in H as (s3 & s4 & -> & H & _).
  apply Matches_Class_inv in H as (c & -> & Hc).
  apply Ascii.eqb_eq in Hc as <-.
  rewrite !has_char_app. simpl. now rewrite orb_true_r.
Qed.

Lemma count_from_length n : forall i, length (Js.count_from n i) = n.
Proof.
  induction n as [|n IH]; intros i; simpl; [reflexivity | now rewrite IH].
Qed.

(** The unfolding of the parser on a text that is no list. *)
Lemma parse_not_list s min max :
  Js.test re_list s = false ->
  parseTimeExpression s min max =
  if snd (simple_forms s min max)
  then Ok (Some (normalise (fst (simple_forms s min max))))
  else Throw (new_Error ("Invalid expression: " +:+ s)).
Proof.
  intros Hl. rewrite parseTimeExpression_eq.
  destruct (simple_forms s min max) as [retVal ok].
  rewrite Hl, andb_false_r. reflexivity.
Qed.

End FormFacts.

(** X1. The wildcard gives the whole domain: for safe integers [min] and
    [max] that are no further apart than an array is long, the parser
    returns for the text [*] the integers from [min] to [max] in ascending
    order, which is the empty array when [min > max]. *)
Theorem X1_wildcard_is_the_domain (min max : Z) :
  - MAX_SAFE_INTEGER <= min -> max <= MAX_SAFE_INTEGER ->
  max - min < MAX_ARRAY_LENGTH ->
  exists l,
    parseTimeExpression "*" min max = Ok (Some l) /\
    StronglySorted Z.lt l /\
    (forall x, In x l <-> min <= x <= max) /\
    length l = Z.to_nat (max - min + 1).
Proof.
  intros _ _ _.
  exists (Js.for_range min max). split; [|split; [|split]].
  - rewrite parse_not_list by reflexivity.
    change (simple_forms "*" min max) with (Js.for_range min max, true).
    cbn [fst snd]. now rewrite normalise_sorted_id by apply for_range_sorted.
  - apply for_range_sorted.
  - intros x. apply for_range_In.
  - apply count_from_length.
Qed.

Lemma X1_witness :
  exists l,
    parseTimeExpression "*" 2020 2099 = Ok (Some l) /\
    StronglySorted Z.lt l /\
    (forall x, In x l <-> 2020 <= x <= 2099) /\
    length l = 80%nat.
Proof.
  apply (X1_wildcard_is_the_domain 2020 2099); vm_compute; congruence.
Defined.

Section SingleFacts.

Variable s : string.
Hypothesis s_digits : s <> "" /\ Js.all_chars Js.is_digit s = true.

Lemma single_text_not_star : String.eqb s "*" = false.
Proof.
  apply String.eqb_neq. destruct s_digits as [Hne Hd].
  destruct s as [|c s']; [congruence|].
  simpl in Hd. apply andb_true_iff in Hd as [Hc _].
  apply is_digit_not in Hc as (_ & _ & Hc). congruence.
Qed.

Lemma single_text_not_range : Js.test re_range s = false.
Proof.
  destruct (Js.test re_range s) eqn:E; [|reflexivity].
  apply test_range_has_hyphen in E.
  rewrite (digits_no_char "-" s) in E; (reflexivity || tauto || discriminate).
Qed.

Lemma single_text_not_list : Js.test re_list s = false.
Proof.
  destruct (Js.test re_list s) eqn:E; [|reflexivity].
  apply test_list_has_comma in E.
  rewrite (digits_no_char "," s) in E; (reflexivity || tauto || discriminate).
Qed.

Lemma single_text_value : Js.parseInt (Some s) = Some (Js.digits_prefix 0 s).
Proof.
  destruct s_digits as [Hne Hd]. destruct s as [|c s']; [congruence|].
  simpl in Hd. apply andb_true_iff in Hd as [Hc _].
  unfold Js.parseInt. now rewrite Hc.
Qed.

Lemma single_text_parse min max :
  parseTimeExpression s min max =
  if (min <=? Js.digits_prefix 0 s) && (Js.digits_prefix 0 s <=? max)
  then Ok (Some [Js.digits_prefix 0 s])
  else Throw (new_Error ("Invalid expression: " +:+ s)).
Proof.
  rewrite parse_not_list by apply single_text_not_list.
  unfold simple_forms, wildcard_form. rewrite single_text_not_star.
  unfold single_form.
  rewrite (proj2 (test_single_iff s) s_digits). cbn [negb andb].
  rewrite single_text_value. cbn [ge_num le_num from_option].
  destruct ((min <=? Js.digits_prefix 0 s) && (Js.digits_prefix 0 s <=? max)).
  - reflexivity.
  - unfold range_form. rewrite single_text_not_range, andb_false_r.
    reflexivity.
Qed.

End SingleFacts.

(** X2. A text made of decimal digits, leading zeros allowed, whose value
    [v] is a safe integer is read as that integer: when [v] is in
    [min .. max] the parser returns the array of [v] alone, otherwise it
    throws.  The value of the numeral of a non-negative integer [n] is
    [n], so that numeral gives [[n]] exactly when [min <= n <= max]. *)
Theorem X2_single_integer_within_bounds (s : string) (v min max : Z) :
  s <> "" -> Js.all_chars Js.is_digit s = true ->
  Js.parseInt (Some s) = Some v -> v <= MAX_SAFE_INTEGER ->
  0 <= v /\
  (min <= v <= max -> parseTimeExpression s min max = Ok (Some [v])) /\
  (~ min <= v <= max ->
   parseTimeExpression s min max =
   Throw (new_Error ("Invalid expression: " +:+ s))) /\
  (forall n, 0 <= n -> s = Js.decimal n -> v = n).
Proof.
  intros Hne Hd Hv _.
  assert (Hs : s <> "" /\ Js.all_chars Js.is_digit s = true) by tauto.
  rewrite (single_text_value s Hs) in Hv. injection Hv as <-.
  split; [|split; [|split]].
  - clear Hs Hne.
    assert (H : forall acc, 0 <= acc -> 0 <= Js.digits_prefix acc s).
    { induction s as [|c s' IH]; intros acc Hacc; simpl; [assumption|].
      simpl in Hd. apply andb_true_iff in Hd as [Hc Hd]. rewrite Hc.
      apply IH; [assumption|].
      unfold Js.is_digit in Hc. apply andb_true_iff in Hc as [Hc _].
      apply N.leb_le in Hc. unfold Js.digit_val. lia. }
    apply H. lia.
  - intros Hv. rewrite (single_text_parse s Hs).
    replace ((min <=? _) && (_ <=? max)) with true; [reflexivity|].
    symmetry. rewrite andb_true_iff, !Z.leb_le. lia.
  - intros Hv. rewrite (single_text_parse s Hs).
    replace ((min <=? _) && (_ <=? max)) with false; [reflexivity|].
    symmetry. apply not_true_is_false. rewrite andb_true_iff, !Z.leb_le. lia.
  - intros n Hn ->. pose proof (parseInt_decimal n Hn) as H.
    rewrite (single_text_value _ Hs) in H. congruence.
Qed.

Lemma X2_witness :
  parseTimeExpression "007" 0 59 = Ok (Some [7]) /\
  parseTimeExpression "60" 0 59 = Throw (new_Error "Invalid expression: 60").
Proof.
  split.
  - destruct (X2_single_integer_within_bounds "007" 7 0 59)
      as (_ & Hin & _);
      [discriminate | reflexivity | reflexivity | vm_compute; congruence |].
    apply Hin. vm_compute. split; discriminate.
  - destruct (X2_single_integer_within_bounds "60" 60 0 59)
      as (_ & _ & Hout & _);
      [discriminate | reflexivity | reflexivity | vm_compute; congruence |].
    apply Hout. vm_compute. intros [_ H]. now apply H.
Defined.



(** ** Lists of terms *)

Section ListFacts.

Lemma term_no_comma t : term_shaped t -> Js.has_char "," t = false.
Proof.
  intros [_ H]. eapply all_chars_has_char; [exact H | reflexivity].
Qed.

Lemma join_cons sep t u rest :
  join sep (t :: u :: rest) = t +:+ String sep (join sep (u :: rest)).
Proof. reflexivity. Qed.

Lemma split_join ts :
  ts <> [] -> Forall term_shaped ts -> Js.split "," (join "," ts) = ts.
Proof.
  induction ts as [|t [|u rest] IH]; intros Hne Hts; [congruence| |].
  - simpl. apply split_no_sep, term_no_comma. now inversion Hts.
  - inversion Hts as [|? ? Ht Hrest]; subst.
    rewrite join_cons, split_app by now apply term_no_comma.
    rewrite IH; [reflexivity | discriminate | assumption].
Qed.

(** What follows the first term in the text of a list. *)
Lemma join_tail_Star rest :
  Forall term_shaped rest ->
  Js.Matches
    (Js.Star (Js.Seq (Js.Class (Ascii.eqb ","))
                     (Js.Plus (Js.Class Js.is_digit_or_hyphen))))
    (match rest with [] => "" | _ => String "," (join "," rest) end).
Proof.
  induction 1 as [|t rest Ht Hrest IH]; [constructor|].
  replace (String "," (join "," (t :: rest)))
    with ((String "," "" +:+ t) +:+
          match rest with [] => "" | _ => String "," (join "," rest) end).
  - constructor; [|exact IH].
    constructor; [now constructor | now apply Matches_Plus_Class].
  - destruct rest as [|u rest]; [now rewrite app_empty_r|].
    rewrite join_cons, app_assoc_str. reflexivity.
Qed.

Lemma test_list_join ts :
  (2 <= length ts)%nat -> Forall term_shaped ts ->
  Js.test re_list (join "," ts) = true.
Proof.
  intros Hn Hts. destruct ts as [|t [|u rest]]; simpl in Hn; try lia.
  inversion Hts as [|? ? Ht Hrest]; subst.
  inversion Hrest as [|? ? Hu Hrest']; subst.
  apply test_Matches. rewrite join_cons. unfold re_list.
  constructor; [now apply Matches_Plus_Class|].
  replace (String "," (join "," (u :: rest)))
    with ((String "," "" +:+ u) +:+
          match rest with [] => "" | _ => String "," (join "," rest) end).
  - constructor; [|now apply join_tail_Star].
    constructor; [now constructor | now apply Matches_Plus_Class].
  - destruct rest as [|w rest]; [now rewrite app_empty_r|].
    rewrite join_cons, app_assoc_str. reflexivity.
Qed.

Lemma term_char_digit c :
  Js.is_digit c = true -> Js.is_digit_or_hyphen c = true.
Proof. unfold Js.is_digit_or_hyphen. now intros ->. Qed.

Lemma term_char_hyphen c :
  Ascii.eqb "-" c = true -> Js.is_digit_or_hyphen c = true.
Proof.
  unfold Js.is_digit_or_hyphen. rewrite Ascii.eqb_sym. intros ->.
  now rewrite orb_true_r.
Qed.

(** A text that holds a comma is none of the three simple forms. *)
Lemma comma_no_simple_form s min max :
  Js.has_char "," s = true -> simple_forms s min max = ([], false).
Proof.
  intros Hc.
  assert (Hstar : String.eqb s "*" = false).
  { apply String.eqb_neq. intros ->. discriminate. }
  assert (Hs : Js.test re_single s = false).
  { destruct (Js.test re_single s) eqn:E; [|reflexivity].
    apply test_single_iff in E as [_ E].
    rewrite (digits_no_char "," s) in Hc; (reflexivity || assumption || discriminate). }
  assert (Hr : Js.test re_range s = false).
  { destruct (Js.test re_range s) eqn:E; [|reflexivity].
    apply test_Matches in E.
    apply (Matches_classes Js.is_digit_or_hyphen) in E.
    - rewrite (all_chars_has_char _ "," s E) in Hc; [discriminate|reflexivity].
    - simpl. repeat split; auto using term_char_digit, term_char_hyphen. }
  unfold simple_forms, wildcard_form, single_form, range_form.
  now rewrite Hstar, Hs, Hr.
Qed.

Lemma has_char_join t u rest : Js.has_char "," (join "," (t :: u :: rest)) = true.
Proof.
  rewrite join_cons, has_char_app. simpl. now rewrite orb_true_r.
Qed.

Lemma every_term_parse_terms min max ts : forall retVal,
  match parse_terms min max ts with
  | Some vss =>
      every_term (fun v => Some (parseTimeExpression v min max)) ts retVal
      = Some (retVal ++ concat vss, true)
  | None =>
      exists rv,
        every_term (fun v => Some (parseTimeExpression v min max)) ts retVal
        = Some (rv, false)
  end.
Proof.
  induction ts as [|t ts IH]; intros retVal; simpl.
  - now rewrite app_nil_r.
  - destruct (parseTimeExpression t min max) as [[values|]|e]; eauto.
    specialize (IH (retVal ++ values)).
    destruct (parse_terms min max ts) as [vss|]; [|exact IH].
    rewrite IH. simpl. now rewrite app_assoc.
Qed.

Lemma parse_terms_Some min max ts vss :
  parse_terms min max ts = Some vss <->
  Forall2 (fun t vs => parseTimeExpression t min max = Ok (Some vs)) ts vss.
Proof.
  revert vss. induction ts as [|t ts IH]; intros vss; simpl.
  - split; [intros [= <-]; constructor | intros H; now inversion H].
  - split.
    + destruct (parseTimeExpression t min max) as [[values|]|e] eqn:E;
        try discriminate.
      destruct (parse_terms min max ts) as [vss'|]; [|discriminate].
      intros [= <-]. constructor; [exact E | now apply IH].
    + intros H. inversion H as [|? vs ? vss' Ht Hts]; subst.
      rewrite Ht. apply IH in Hts. now rewrite Hts.
Qed.

(** The text of a list of terms parses to the normalised union of what its
    terms parse to, and throws when a term throws. *)
Lemma list_text_parse ts min max :
  (2 <= length ts)%nat -> Forall term_shaped ts ->
  parseTimeExpression (join "," ts) min max =
  match parse_terms min max ts with
  | Some vss => Ok (Some (normalise (concat vss)))
  | None => Throw (new_Error ("Invalid expression: " +:+ join "," ts))
  end.
Proof.
  intros Hn Hts. rewrite parseTimeExpression_eq.
  rewrite comma_no_simple_form.
  2:{ destruct ts as [|t [|u rest]]; simpl in Hn; try lia.
      apply has_char_join. }
  rewrite test_list_join by assumption. cbn [negb andb]. cbv zeta.
  rewrite split_join; [|destruct ts; [simpl in Hn; lia | discriminate]
                        |assumption].
  pose proof (every_term_parse_terms min max ts []) as H.
  destruct (parse_terms min max ts) as [vss|].
  - rewrite H. reflexivity.
  - destruct H as [rv ->]. reflexivity.
Qed.

(** Two strictly ascending lists with the same elements are equal. *)
Lemma sorted_ext (l1 : list Z) : forall l2,
  StronglySorted Z.lt l1 -> StronglySorted Z.lt l2 ->
  (forall x, In x l1 <-> In x l2) -> l1 = l2.
Proof.
  induction l1 as [|a l1 IH]; intros l2 H1 H2 Hext.
  - destruct l2 as [|b l2]; [reflexivity|].
    exfalso. apply (Hext b). simpl. auto.
  - destruct l2 as [|b l2]; [exfalso; apply (Hext a); simpl; auto|].
    inversion H1 as [|? ? S1 F1]; inversion H2 as [|? ? S2 F2]; subst.
    rewrite List.Forall_forall in F1, F2.
    assert (a = b).
    { destruct (proj1 (Hext a) (or_introl eq_refl)) as [|Ha]; [congruence|].
      destruct (proj2 (Hext b) (or_introl eq_refl)) as [|Hb]; [congruence|].
      apply F2 in Ha. apply F1 in Hb. lia. }
    subst b. f_equal. apply IH; try assumption.
    intros x. split; intros Hx.
    + destruct (proj1 (Hext x) (or_intror Hx)) as [<-|]; [|assumption].
      apply F1 in Hx. lia.
    + destruct (proj2 (Hext x) (or_intror Hx)) as [<-|]; [|assumption].
      apply F2 in Hx. lia.
Qed.

Lemma normalise_ext l1 l2 :
  (forall x, In x l1 <-> In x l2) -> normalise l1 = normalise l2.
Proof.
  intros H. apply sorted_ext; try apply normalise_sorted.
  intros x. now rewrite !normalise_In.
Qed.

Lemma terms_values_In min max ts vss :
  Forall2 (fun t vs => parseTimeExpression t min max = Ok (Some vs)) ts vss ->
  forall x, In x (concat vss) <->
            exists t vs, In t ts /\
                         parseTimeExpression t min max = Ok (Some vs) /\
                         In x vs.
Proof.
  induction 1 as [|t vs ts vss Ht _ IH]; intros x; simpl.
  - split; [tauto | intros (t & vs & [] & _)].
  - rewrite in_app_iff, IH. split.
    + intros [Hx|(t' & vs' & Hin & Hp & Hx)]; [exists t, vs | exists t', vs'];
        auto.
    + intros (t' & vs' & [<-|Hin] & Hp & Hx).
      * left. congruence.
      * right. eauto.
Qed.

End ListFacts.

(** X4. A list is the union of its terms.  For two or more terms, each a
    non-empty string of digits and hyphens, the parser applied to the
    terms joined with commas returns, when every term parses on its own,
    the ascending duplicate-free array of the values of all the terms;
    when some term throws it throws, with the whole text in the message. *)
Theorem X4_list_is_union_of_terms (ts : list string) (min max : Z) :
  (2 <= length ts)%nat -> Forall term_shaped ts ->
  (forall vss,
     Forall2 (fun t vs => parseTimeExpression t min max = Ok (Some vs))
       ts vss ->
     exists l,
       parseTimeExpression (join "," ts) min max = Ok (Some l) /\
       StronglySorted Z.lt l /\
       (forall x, In x l <-> exists vs, In vs vss /\ In x vs)) /\
  ((exists t e, In t ts /\ parseTimeExpression t min max = Throw e) ->
   parseTimeExpression (join "," ts) min max =
   Throw (new_Error ("Invalid expression: " +:+ join "," ts))).
Proof.
  intros Hn Hts. split.
  - intros vss Hall. exists (normalise (concat vss)).
    rewrite list_text_parse by assumption.
    rewrite (proj2 (parse_terms_Some min max ts vss) Hall).
    split; [reflexivity|]. split; [apply normalise_sorted|].
    intros x. rewrite normalise_In, in_concat. reflexivity.
  - intros (t & e & Hin & He). rewrite list_text_parse by assumption.
    destruct (parse_terms min max ts) as [vss|] eqn:E; [|reflexivity].
    exfalso. apply parse_terms_Some in E.
    clear Hn Hts. induction E as [|t' vs ts vss Ht _ IH]; [destruct Hin|].
    destruct Hin as [<-|Hin]; [congruence | auto].
Qed.

Lemma X4_witness :
  (exists l,
     parseTimeExpression (join "," ["9"; "1-3"; "2"]) 0 59 = Ok (Some l) /\
     StronglySorted Z.lt l /\
     (forall x, In x l <->
                exists vs, In vs [[9]; [1; 2; 3]; [2]] /\ In x vs)) /\
  parseTimeExpression (join "," ["9"; "3-1"]) 0 59 =
    Throw (new_Error "Invalid expression: 9,3-1").
Proof.
  split.
  - apply (proj1 (X4_list_is_union_of_terms ["9"; "1-3"; "2"] 0 59
                    ltac:(simpl; lia)
                    ltac:(repeat constructor; discriminate))).
    repeat constructor.
  - apply (proj2 (X4_list_is_union_of_terms ["9"; "3-1"] 0 59
                    ltac:(simpl; lia)
                    ltac:(repeat constructor; discriminate))).
    exists "3-1", (new_Error "Invalid expression: 3-1").
    split; [simpl; auto | reflexivity].
Defined.

Section ListOrderFacts.

Lemma terms_parse_all min max ts :
  (forall t, In t ts -> exists vs, parseTimeExpression t min max = Ok (Some vs)) ->
  exists vss,
    Forall2 (fun t vs => parseTimeExpression t min max = Ok (Some vs)) ts vss.
Proof.
  induction ts as [|t ts IH]; intros H.
  - exists []. constructor.
  - destruct (H t (or_introl eq_refl)) as [vs Hvs].
    destruct IH as [vss Hvss]; [intros u Hu; apply H; now right|].
    exists (vs :: vss). now constructor.
Qed.

Lemma terms_parse_each min max ts vss :
  Forall2 (fun t vs => parseTimeExpression t min max = Ok (Some vs)) ts vss ->
  forall t, In t ts -> exists vs, parseTimeExpression t min max = Ok (Some vs).
Proof.
  induction 1 as [|t vs ts vss Ht _ IH]; intros u Hu;
    [destruct Hu | destruct Hu as [<-|Hu]; eauto].
Qed.

End ListOrderFacts.

(** X5. The order of the terms of a list and their repetition do not
    matter: two lists of terms that hold the same terms, in any order and
    any number of times, parse to the same array. *)
Theorem X5_list_order_and_repetition_are_irrelevant
    (ts ts' : list string) (min max : Z) (l : list Z) :
  (2 <= length ts)%nat -> (2 <= length ts')%nat ->
  Forall term_shaped ts -> Forall term_shaped ts' ->
  (forall t, In t ts <-> In t ts') ->
  parseTimeExpression (join "," ts) min max = Ok (Some l) ->
  parseTimeExpression (join "," ts') min max = Ok (Some l).
Proof.
  intros Hn Hn' Hts Hts' Hsame.
  rewrite !list_text_parse by assumption.
  destruct (parse_terms min max ts) as [vss|] eqn:E; [|discriminate].
  intros [= <-]. apply parse_terms_Some in E.
  destruct (terms_parse_all min max ts') as [vss' E'].
  { intros t Ht. apply (terms_parse_each min max ts vss E). now apply Hsame. }
  rewrite (proj2 (parse_terms_Some min max ts' vss') E').
  do 2 f_equal. apply normalise_ext. intros x.
  rewrite (terms_values_In min max ts vss E),
    (terms_values_In min max ts' vss' E').
  split; intros (t & vs & Hin & Hp & Hx); exists t, vs;
    (split; [now apply Hsame | auto]).
Qed.

Lemma X5_witness :
  parseTimeExpression (join "," ["5-7"; "1"; "1"; "3"; "5-7"]) 0 59
  = Ok (Some [1; 3; 5; 6; 7]).
Proof.
  apply (X5_list_order_and_repetition_are_irrelevant
           ["1"; "3"; "5-7"] ["5-7"; "1"; "1"; "3"; "5-7"] 0 59);
    try (simpl; lia); try (repeat constructor; discriminate).
  all: try (intros t; simpl; tauto); try reflexivity.
Defined.

(** ** Removing tasks *)

Section RemovalFacts.

(** [findIndex] and [splice] together take out the first task with the
    name, and nothing when there is none. *)
Lemma findIndex_from_spec hp name l : forall i, 0 <= i ->
  (findIndex_from hp name i l = -1 /\ remove_first_named hp name l = l) \/
  (i <= findIndex_from hp name i l /\
   delete (Z.to_nat (findIndex_from hp name i l - i)) l =
     remove_first_named hp name l).
Proof.
  induction l as [|r l IH]; intros i Hi; simpl; [left; auto|].
  assert (Hrec :
    (findIndex_from hp name (i + 1) l = -1 /\
     r :: remove_first_named hp name l = r :: l) \/
    (i <= findIndex_from hp name (i + 1) l /\
     delete (Z.to_nat (findIndex_from hp name (i + 1) l - i)) (r :: l) =
       r :: remove_first_named hp name l)).
  { destruct (IH (i + 1) ltac:(lia)) as [[E ->]|[Hle E]]; [left; auto|].
    right. split; [lia|].
    replace (Z.to_nat (findIndex_from hp name (i + 1) l - i))
      with (S (Z.to_nat (findIndex_from hp name (i + 1) l - (i + 1))))
      by lia.
    simpl. now rewrite E. }
  destruct (hp !! r) as [item|]; [|exact Hrec].
  destruct (String.eqb (StoredTask.name item) name); [|exact Hrec].
  right. split; [lia|]. now rewrite Z.sub_diag.
Qed.

Lemma removeTask_tasks name st :
  tasks (removeTask name st) = remove_first_named (heap st) name (tasks st).
Proof.
  unfold removeTask.
  destruct (findIndex_from_spec (heap st) name (tasks st) 0 ltac:(lia))
    as [[E Hl]|[Hle E]].
  - rewrite E. simpl. now rewrite Hl.
  - replace (-1 <? findIndex_from (heap st) name 0 (tasks st)) with true
      by (symmetry; apply Z.ltb_lt; lia).
    cbn [tasks set_tasks]. now rewrite Z.sub_0_r in E.
Qed.

Lemma listing_remove_first hp name (l : list ref) :
  omap (fun r => info_of <$> hp !! r) (remove_first_named hp name l) =
  remove_first_info name (omap (fun r => info_of <$> hp !! r) l).
Proof.
  induction l as [|r l IH]; [reflexivity|]. csimpl.
  destruct (hp !! r) as [item|] eqn:E; csimpl; rewrite ?E; csimpl;
    [|exact IH].
  change (TaskInfo.name (info_of item)) with (StoredTask.name item).
  destruct (String.eqb (StoredTask.name item) name); [reflexivity|].
  csimpl. rewrite E. csimpl. now rewrite IH.
Qed.

Lemma remove_first_info_absent name l :
  Forall (fun i => TaskInfo.name i <> name) l ->
  remove_first_info name l = l.
Proof.
  induction 1 as [|i l Hi _ IH]; simpl; [reflexivity|].
  apply String.eqb_neq in Hi. now rewrite Hi, IH.
Qed.

Lemma remove_first_named_absent hp name (l : list ref) :
  Forall (fun i => TaskInfo.name i <> name)
    (omap (fun r => info_of <$> hp !! r) l) ->
  remove_first_named hp name l = l.
Proof.
  induction l as [|r l IH]; [reflexivity|]. csimpl.
  destruct (hp !! r) as [item|]; csimpl; intros H.
  - inversion H as [|? ? Hi Hl]; subst.
    change (TaskInfo.name (info_of item)) with (StoredTask.name item) in Hi.
    apply String.eqb_neq in Hi. now rewrite Hi, IH.
  - now rewrite IH.
Qed.

Lemma findIndex_absent hp name (l : list ref) : forall i,
  Forall (fun i => TaskInfo.name i <> name)
    (omap (fun r => info_of <$> hp !! r) l) ->
  findIndex_from hp name i l = -1.
Proof.
  induction l as [|r l IH]; intros i; [reflexivity|]. csimpl.
  destruct (hp !! r) as [item|]; csimpl; intros H.
  - inversion H as [|? ? Hi Hl]; subst.
    change (TaskInfo.name (info_of item)) with (StoredTask.name item) in Hi.
    apply String.eqb_neq in Hi. rewrite Hi. auto.
  - auto.
Qed.

End RemovalFacts.

(** X6. [removeTask] takes the first task with the given name out of the
    listing, in registration order, and leaves every other entry in its
    place; the task objects and the timer are not touched.  With two
    tasks of one name the older one goes and the newer one stays. *)
Theorem X6_removeTask_removes_first_of_name (name : string) (st : State) :
  getTasks (removeTask name st) = remove_first_info name (getTasks st) /\
  heap (removeTask name st) = heap st /\
  runner (removeTask name st) = runner st /\
  console (removeTask name st) = console st.
Proof.
  split.
  - unfold getTasks. rewrite removeTask_heap, removeTask_tasks.
    apply listing_remove_first.
  - unfold removeTask. destruct (-1 <? _); auto.
Qed.

(** X7. Removing a name that no listed task has changes nothing at all,
    and it is no error; so, when the names of the listed tasks are all
    different, removing the same name a second time changes nothing. *)
Theorem X7_removeTask_of_absent_name_is_no_op (name : string) (st : State) :
  (Forall (fun i => TaskInfo.name i <> name) (getTasks st) ->
   removeTask name st = st) /\
  (List.NoDup (map TaskInfo.name (getTasks st)) ->
   removeTask name (removeTask name st) = removeTask name st).
Proof.
  assert (Habs : forall s, Forall (fun i => TaskInfo.name i <> name)
                             (getTasks s) -> removeTask name s = s).
  { intros s H. unfold removeTask.
    now rewrite (findIndex_absent (heap s) name (tasks s) 0 H). }
  split; [apply Habs|].
  intros Hnd. apply Habs.
  unfold getTasks at 1. rewrite removeTask_heap, removeTask_tasks.
  rewrite listing_remove_first. fold (getTasks st).
  induction (getTasks st) as [|i l IH]; simpl; [constructor|].
  inversion Hnd as [|? ? Hi Hl]; subst.
  destruct (String.eqb (TaskInfo.name i) name) eqn:E.
  - apply String.eqb_eq in E. subst name.
    apply List.Forall_forall. intros j Hj Hname. apply Hi.
    rewrite <- Hname. now apply in_map.
  - apply String.eqb_neq in E. constructor; auto.
Qed.

Lemma X7_witness :
  let st :=
    snd (addTasks
           [ (mkDate 2025 0 1 3 0 0 0,
              Task.mk "a" "0 3 1 1 2" (fun _ => Returns) None None);
             (mkDate 2025 0 1 3 0 0 0,
              Task.mk "b" "5 4 * * *" (fun _ => Returns) None None) ]
           initial) in
  removeTask "c" st = st /\
  removeTask "a" (removeTask "a" st) = removeTask "a" st.
Proof.
  intros st. split.
  - apply (proj1 (X7_removeTask_of_absent_name_is_no_op "c" st)).
    vm_compute. repeat constructor; discriminate.
  - apply (proj2 (X7_removeTask_of_absent_name_is_no_op "a" st)).
    vm_compute. repeat constructor; simpl; intuition discriminate.
Defined.

Section RoundTripFacts.

Lemma remove_first_named_app hp name (l l2 : list ref) :
  Forall (fun i => TaskInfo.name i <> name)
    (omap (fun r => info_of <$> hp !! r) l) ->
  remove_first_named hp name (l ++ l2) = l ++ remove_first_named hp name l2.
Proof.
  induction l as [|r l IH]; [reflexivity|]. csimpl.
  destruct (hp !! r) as [item|] eqn:E; csimpl; intros H.
  - inversion H as [|? ? Hi Hl]; subst.
    change (TaskInfo.name (info_of item)) with (StoredTask.name item) in Hi.
    apply String.eqb_neq in Hi. now rewrite Hi, IH.
  - now rewrite IH.
Qed.

End RoundTripFacts.

(** X8. Adding a task under a name that no listed task has and then
    removing that name gives back the registry and the listing as they were
    before the addition. *)
Theorem X8_add_then_remove_restores_registry
    (d : Date) (task : Task.t) (st st1 : State) :
  reachable st ->
  Forall (fun i => TaskInfo.name i <> Task.name task) (getTasks st) ->
  addTask d task st = (Ok (), st1) ->
  getTasks st1 = getTasks st ++ [info_new task] /\
  tasks (removeTask (Task.name task) st1) = tasks st /\
  getTasks (removeTask (Task.name task) st1) = getTasks st.
Proof.
  intros Hst Habs Hadd. apply reachable_refs_valid in Hst.
  apply addTask_Ok in Hadd as (t & Hc & Hh & Ht & Hi).
  assert (Hname : StoredTask.name t = Task.name task).
  { apply (f_equal TaskInfo.name) in Hi. exact Hi. }
  assert (Hg1 : getTasks st1 = getTasks st ++ [info_new task]).
  { rewrite (getTasks_heap_tasks (push t st) st1), getTasks_push; auto.
    now rewrite Hi. }
  assert (Hold : omap (fun r => info_of <$> heap st1 !! r) (tasks st)
                 = getTasks st).
  { unfold getTasks. apply getTasks_ext. rewrite Hh.
    eapply List.Forall_impl; [|exact Hst].
    intros r Hr. cbn [heap push]. now apply lookup_app_l. }
  assert (Htasks : tasks (removeTask (Task.name task) st1) = tasks st).
  { rewrite removeTask_tasks, Ht. cbn [tasks push].
    rewrite remove_first_named_app by now rewrite Hold.
    simpl. rewrite Hh. cbn [heap push]. rewrite list_lookup_middle by reflexivity.
    rewrite Hname, String.eqb_refl. apply app_nil_r. }
  split; [assumption|]. split; [assumption|].
  unfold getTasks at 1. rewrite removeTask_heap, Htasks. exact Hold.
Qed.

Lemma X8_witness :
  let st :=
    snd (addTask (mkDate 2025 0 1 3 0 0 0)
           (Task.mk "a" "0 3 1 1 2" (fun _ => Returns) None None) initial) in
  let st1 :=
    snd (addTask (mkDate 2025 0 1 3 0 0 0)
           (Task.mk "b" "5 4 * * *" (fun _ => Returns) None None) st) in
  getTasks (removeTask "b" st1) = getTasks st.
Proof.
  intros st st1.
  refine (proj2 (proj2 (X8_add_then_remove_restores_registry
                          (mkDate 2025 0 1 3 0 0 0)
                          (Task.mk "b" "5 4 * * *" (fun _ => Returns)
                             None None) st st1 _ _ _))).
  - apply reach_addTask, reach_initial.
  - vm_compute. repeat constructor; discriminate.
  - vm_compute. reflexivity.
Defined.

(** ** Membership, on every array *)

Section SearchFacts.

(** The loop answers [true] only for a value that the array holds,
    ascending or not. *)
Lemma search_loop_sound arr value minIdx maxIdx :
  search_loop arr value minIdx maxIdx = true -> In value arr.
Proof.
  funelim (search_loop arr value minIdx maxIdx); [|discriminate].
  unfold testResult_of.
  destruct (Js.index arr ((minIdx + maxIdx) / 2)) as [x|] eqn:Ex;
    cbn [fmap option_fmap option_map]; [|discriminate].
  destruct (value - x <? 0) eqn:E1; [now apply (H 0)|].
  destruct (0 <? value - x) eqn:E2; [now apply (H0 0)|].
  intros _. apply Z.ltb_ge in E1, E2. assert (x = value) by lia. subst x.
  unfold Js.index in Ex. destruct (_ <? 0); [discriminate|].
  apply list_elem_of_In. eapply list_elem_of_lookup_2. exact Ex.
Qed.

Lemma existsInArray_sound arr v : existsInArray arr v = true -> In v arr.
Proof.
  unfold existsInArray. destruct (Z.of_nat (length arr) <? 10).
  - apply includes_In.
  - destruct (_ || _); [discriminate | apply search_loop_sound].
Qed.

(** On an ascending array the answer is [true] exactly for the values of
    an array of fewer than ten elements. *)
Lemma existsInArray_ascending arr v :
  StronglySorted Z.lt arr ->
  existsInArray arr v = true <-> short_member arr v.
Proof.
  intros Hs. unfold short_member.
  destruct (le_lt_dec 10 (length arr)) as [Hlong|Hshort].
  - rewrite existsInArray_long by assumption. split; [discriminate|lia].
  - rewrite existsInArray_short by assumption. tauto.
Qed.

End SearchFacts.

(** X9. [existsInArray] never finds a value that the array does not hold,
    whatever the array, ascending or not and of any length; and on an
    array of fewer than ten elements it finds exactly the values the array
    holds. *)
Theorem X9_existsInArray_finds_only_members (arr : list Z) (v : Z) :
  (existsInArray arr v = true -> In v arr) /\
  ((length arr < 10)%nat -> In v arr -> existsInArray arr v = true).
Proof.
  split; [apply existsInArray_sound|].
  intros Hn Hin. now apply existsInArray_short.
Qed.

Lemma X9_witness :
  In 7 [9; 7; 7; 1] /\ existsInArray [9; 7; 7; 1] 7 = true.
Proof.
  split.
  - apply (proj1 (X9_existsInArray_finds_only_members [9; 7; 7; 1] 7)).
    reflexivity.
  - apply (proj2 (X9_existsInArray_finds_only_members [9; 7; 7; 1] 7)).
    + simpl. lia.
    + simpl. tauto.
Defined.

(** X10. The [while] loop of [existsInArray] is a correct binary search:
    on an ascending array, run from a window of indices inside the array,
    it returns [true] exactly when the value is at an index of the window;
    run from the whole array it returns [true] exactly for the values of
    the array. *)
Theorem X10_search_loop_is_binary_search
    (arr : list Z) (value minIdx maxIdx : Z) :
  StronglySorted Z.lt arr ->
  (0 <= minIdx -> maxIdx < Z.of_nat (length arr) ->
   search_loop arr value minIdx maxIdx = true <->
   exists i, minIdx <= i <= maxIdx /\ Js.index arr i = Some value) /\
  (search_loop arr value 0 (Z.of_nat (length arr) - 1) = true <->
   In value arr).
Proof.
  intros Hs. split; [now apply search_loop_spec|].
  rewrite search_loop_spec by (assumption || lia). split.
  - intros (i & Hi & Hv). unfold Js.index in Hv.
    destruct (i <? 0); [discriminate|].
    apply list_elem_of_In. eapply list_elem_of_lookup_2. exact Hv.
  - intros Hin. apply list_elem_of_In, list_elem_of_lookup_1 in Hin
      as [n Hn].
    exists (Z.of_nat n). pose proof (lookup_lt_Some _ _ _ Hn). split; [lia|].
    unfold Js.index.
    replace (Z.of_nat n <? 0) with false by (symmetry; apply Z.ltb_ge; lia).
    now rewrite Nat2Z.id.
Qed.

Lemma X10_witness :
  search_loop (Js.for_range 1 31) 17 0 30 = true /\
  search_loop (Js.for_range 1 31) 17 0 10 = false.
Proof.
  pose proof (X10_search_loop_is_binary_search (Js.for_range 1 31) 17 0 30
                (for_range_sorted 1 31)) as [_ H30].
  pose proof (X10_search_loop_is_binary_search (Js.for_range 1 31) 17 0 10
                (for_range_sorted 1 31)) as [H10 _].
  split.
  - apply H30. apply for_range_In. lia.
  - apply not_true_is_false. intros H.
    apply H10 in H as (i & Hi & Hv); [|lia|simpl; lia].
    assert (H16 : Js.index (Js.for_range 1 31) 16 = Some 17) by reflexivity.
    destruct (Z.eq_dec i 16) as [->|Hne]; [lia|].
    pose proof (sorted_index_lt (Js.for_range 1 31) i 16 17 17
                  (for_range_sorted 1 31) ltac:(lia) Hv H16).
    lia.
Defined.

(** ** What a tick does *)

Section TickEffects.

Lemma due_filter hp now (l : list ref) :
  fst (due hp now l) = List.filter (is_due hp now) l /\
  snd (due hp now l) = omap (running_line hp) (fst (due hp now l)).
Proof.
  induction l as [|r l [IH1 IH2]]; [split; reflexivity|].
  simpl due. destruct (due hp now l) as [rs out]. cbn [fst snd] in *.
  simpl List.filter. unfold is_due at 1.
  destruct (hp !! r) as [task|] eqn:E.
  - destruct (runTask task now); cbn [fst snd].
    + csimpl. unfold running_line at 1. rewrite E. csimpl.
      subst out rs. split; reflexivity.
    + subst out rs. split; reflexivity.
  - cbn [fst snd]. subst out rs. split; reflexivity.
Qed.

Lemma tick_effects d st :
  heap (fst (tick d st)) = heap st /\
  tasks (fst (tick d st)) = tasks st /\
  runner (fst (tick d st)) =
    Some (mkTimeout ((60 - getSeconds d) * 1000) false) /\
  snd (tick d st) = List.filter (is_due (heap st) (now_of d)) (tasks st) /\
  console (fst (tick d st)) =
    console st ++ omap (running_line (heap st)) (snd (tick d st)).
Proof.
  unfold tick. cbn [heap tasks set_runner].
  pose proof (due_filter (heap st) (now_of d) (tasks st)) as [H1 H2].
  destruct (due (heap st) (now_of d) (tasks st)) as [rs out].
  cbn [fst snd] in *. subst out. repeat split; try reflexivity. exact H1.
Qed.

(** The sets of every task object of a reachable state are field sets of
    their domains, and the five that are always there are not empty. *)
Lemma reachable_sets st r task :
  reachable st -> heap st !! r = Some task ->
  compiled_sets task /\ nonempty_sets task.
Proof.
  intros Hst Hr.
  assert (H : Forall (fun t => compiled_sets t /\ nonempty_sets t) (heap st)).
  { apply reachable_heap; [|intros d t; apply ran_sets|assumption].
    intros tk exp t. apply compile_sets. }
  rewrite Forall_lookup in H. apply (H r task Hr).
Qed.

End TickEffects.

(** X11. A tick leaves the registry and the task objects as they are.  It
    arms a new wake for the next minute boundary, [60 - seconds] seconds
    ahead, which is between 1 and 60 seconds when the seconds of the clock
    are between 0 and 59.  The executions it schedules are those of the
    registered tasks that are due at the snapshot, each once and in
    registration order, and it writes one line on the console for each. *)
Theorem X11_tick_schedules_the_due_tasks (d : Date) (st : State) :
  heap (fst (tick d st)) = heap st /\
  tasks (fst (tick d st)) = tasks st /\
  runner (fst (tick d st)) =
    Some (mkTimeout ((60 - getSeconds d) * 1000) false) /\
  (0 <= getSeconds d <= 59 ->
   1000 <= (60 - getSeconds d) * 1000 <= 60000) /\
  snd (tick d st) = List.filter (is_due (heap st) (now_of d)) (tasks st) /\
  console (fst (tick d st)) =
    console st ++ omap (running_line (heap st)) (snd (tick d st)).
Proof.
  destruct (tick_effects d st) as (H1 & H2 & H3 & H4 & H5).
  repeat split; try assumption; lia.
Qed.

Lemma X11_witness :
  1000 <= (60 - getSeconds (mkDate 2025 5 1 0 0 0 58)) * 1000 <= 60000.
Proof.
  apply (X11_tick_schedules_the_due_tasks (mkDate 2025 5 1 0 0 0 58) initial).
  simpl. lia.
Defined.

Section DueFacts.

Lemma runTask_entries task (a b c e f g : Key * Z) :
  runTask task [a; b; c; e; f; g] = true <->
  entry_ok task a = true /\ entry_ok task b = true /\
  entry_ok task c = true /\ entry_ok task e = true /\
  entry_ok task f = true /\ entry_ok task g = true.
Proof.
  unfold runTask. simpl. rewrite !andb_true_iff. tauto.
Qed.

Lemma field_set_sorted lo hi l : field_set lo hi l -> StronglySorted Z.lt l.
Proof. now intros [H _]. Qed.

(** For a task with ascending sets the predicate of [tick] is [due_at]. *)
Lemma runTask_compiled task d :
  compiled_sets task -> runTask task (now_of d) = true <-> due_at task d.
Proof.
  intros (Hmin & Hhour & Hday & Hmonth & Hweekday & Hyear).
  unfold now_of. rewrite runTask_entries. unfold entry_ok, due_at.
  cbn [fst snd field].
  rewrite !existsInArray_ascending by (eapply field_set_sorted; eassumption).
  destruct (StoredTask.year task) as [years|].
  - rewrite existsInArray_ascending
      by (eapply field_set_sorted; apply Hyear). tauto.
  - tauto.
Qed.

End DueFacts.

(** X12. When a registered task is due.  In every state the module can
    reach, the predicate of [tick] holds of a task object at the clock
    reading [d] exactly when each of its sets has fewer than ten values and
    holds the value of the snapshot: 0 or 1 for the minute set (1 when
    minute plus second exceeds 50), the hour, the day of the month, the
    month, the weekday, and the year when the year set is not [null].  A
    task with a set of ten values or more, such as a [*] for the minute,
    the hour, the day or the month, is never due. *)
Theorem X12_due_exactly_for_short_sets
    (st : State) (r : ref) (task : StoredTask.t) (d : Date) :
  reachable st -> heap st !! r = Some task ->
  (runTask task (now_of d) = true <-> due_at task d) /\
  (In r (snd (tick d st)) -> due_at task d) /\
  ((10 <= length (StoredTask.min task) \/
    10 <= length (StoredTask.hour task) \/
    10 <= length (StoredTask.day task) \/
    10 <= length (StoredTask.month task))%nat ->
   ~ In r (snd (tick d st))).
Proof.
  intros Hst Hr.
  pose proof (proj1 (reachable_sets st r task Hst Hr)) as Hc.
  pose proof (runTask_compiled task d Hc) as Hdue.
  assert (Hin : In r (snd (tick d st)) -> due_at task d).
  { destruct (tick_effects d st) as (_ & _ & _ & -> & _).
    rewrite filter_In. unfold is_due. rewrite Hr. intros [_ H].
    now apply Hdue. }
  split; [exact Hdue|]. split; [exact Hin|].
  intros Hlong Hr'. apply Hin in Hr'.
  destruct Hr' as ([] & [] & [] & [] & _). lia.
Qed.

Lemma X12_witness :
  ~ In 0%nat
      (snd (tick (mkDate 2025 5 1 0 0 0 0)
              (snd (addTask (mkDate 2025 5 1 0 0 0 0)
                      (Task.mk "all" "* * * * *" (fun _ => Returns)
                         None None) initial)))).
Proof.
  refine (proj2 (proj2 (X12_due_exactly_for_short_sets _ 0%nat _
                          (mkDate 2025 5 1 0 0 0 0) _ _)) _).
  - apply reach_addTask, reach_initial.
  - reflexivity.
  - left. simpl. lia.
Defined.

(** ** What an execution does *)

Section ExecutionEffects.

Lemma execute_tasks d r st task :
  heap st !! r = Some task ->
  tasks (execute d r st) =
  if negb (throws (StoredTask.callBack task ()))
     && reached_maxRuns (StoredTask.ran d task)
  then remove_first_named (<[r := StoredTask.ran d task]> (heap st))
         (StoredTask.name task) (tasks st)
  else tasks st.
Proof.
  intros Hr. unfold execute. rewrite Hr.
  change (StoredTask.callBack (StoredTask.ran d task))
    with (StoredTask.callBack task).
  change (StoredTask.name (StoredTask.ran d task))
    with (StoredTask.name task).
  destruct (StoredTask.callBack task ()) as [|rej|err]; cbn [throws negb andb].
  - destruct (reached_maxRuns _); rewrite ?removeTask_tasks; reflexivity.
  - destruct (reached_maxRuns _), rej; unfold log; cbn [tasks];
      rewrite ?removeTask_tasks; reflexivity.
  - reflexivity.
Qed.

Lemma execute_runner d r st : runner (execute d r st) = runner st.
Proof.
  unfold execute. destruct (heap st !! r) as [task|]; [|reflexivity].
  destruct (StoredTask.callBack _ _) as [|rej|err];
    repeat match goal with
    | |- context [if ?c then _ else _] => destruct c
    | |- context [match ?o with Some _ => _ | None => _ end] => destruct o
    end; unfold log, removeTask; cbn [runner];
    repeat match goal with
    | |- context [if ?c then _ else _] => destruct c
    end; reflexivity.
Qed.

Lemma execute_other d r st r' :
  r' <> r -> heap (execute d r st) !! r' = heap st !! r'.
Proof.
  intros Hne. destruct (execute_heap d r st) as [->|(task & _ & ->)];
    [reflexivity|].
  now apply list_lookup_insert_ne.
Qed.

Lemma execute_no_object d r st : heap st !! r = None -> execute d r st = st.
Proof. intros H. unfold execute. now rewrite H. Qed.

End ExecutionEffects.

(** X13. For a callback that does not itself call [addTask] or
    [removeTask].  An execution records the run in its task object and
    nowhere else: the run count goes up by one and [lastRun] becomes the
    time of the execution, whether the callback returns, returns a promise
    or throws; the other properties of the object, the other task objects
    and the timer stay as they are.  The registry changes only by the
    removal of the first task of that name, and only when the callback did
    not throw and the new run count equals a [maxRuns] that is set and not
    0. *)
Theorem X13_execution_records_one_run
    (d : Date) (r : ref) (st : State) (task : StoredTask.t) :
  heap st !! r = Some task ->
  (exists task',
     heap (execute d r st) !! r = Some task' /\
     StoredTask.countRuns task' = StoredTask.countRuns task + 1 /\
     StoredTask.lastRun task' = Some d /\
     same_task task task') /\
  (forall r', r' <> r -> heap (execute d r st) !! r' = heap st !! r') /\
  runner (execute d r st) = runner st /\
  tasks (execute d r st) =
    (if negb (throws (StoredTask.callBack task ()))
        && reached_maxRuns (StoredTask.ran d task)
     then remove_first_named (heap (execute d r st))
            (StoredTask.name task) (tasks st)
     else tasks st).
Proof.
  intros Hr. split; [|split; [|split]].
  - exists (StoredTask.ran d task).
    split; [apply (execute_counts d r st task Hr)|].
    destruct task. repeat split.
  - intros r'. apply execute_other.
  - apply execute_runner.
  - rewrite (execute_tasks d r st task Hr).
    destruct (execute_heap d r st) as [E|(task0 & Ht & ->)].
    + exfalso. pose proof (proj1 (execute_counts d r st task Hr)) as H.
      rewrite E, Hr in H. injection H as H.
      apply (f_equal StoredTask.countRuns) in H. destruct task. cbn in H. lia.
    + rewrite Hr in Ht. injection Ht as <-. reflexivity.
Qed.

Lemma X13_witness :
  let d := mkDate 2025 5 1 0 0 0 0 in
  let st :=
    snd (addTask d (Task.mk "job" "0 0 1 6 0" (fun _ => Throws "boom")
                      None (Some 1)) initial) in
  exists task',
    heap (execute d 0%nat st) !! 0%nat = Some task' /\
    StoredTask.countRuns task' = 1 /\ StoredTask.lastRun task' = Some d.
Proof.
  intros d st.
  destruct (proj1 (X13_execution_records_one_run d 0%nat st _ eq_refl))
    as (task' & H1 & H2 & H3 & _).
  exists task'. split; [exact H1|]. split; [exact H2 | exact H3].
Defined.

Section MaxRunsFacts.

Lemma names_after_run (hp : list StoredTask.t) d r task (l : list ref) :
  hp !! r = Some task ->
  map TaskInfo.name
    (omap (fun r' => info_of <$> <[r := StoredTask.ran d task]> hp !! r') l) =
  map TaskInfo.name (omap (fun r' => info_of <$> hp !! r') l).
Proof.
  intros Hr. induction l as [|r' l IH]; [reflexivity|]. csimpl.
  destruct (Nat.eq_dec r' r) as [->|Hne].
  - rewrite list_lookup_insert_eq by (eapply lookup_lt_Some; exact Hr).
    rewrite Hr. csimpl. now rewrite IH.
  - rewrite list_lookup_insert_ne by congruence.
    destruct (hp !! r'); csimpl; now rewrite IH.
Qed.

Lemma listed_name (hp : list StoredTask.t) r task (l : list ref) :
  hp !! r = Some task -> In r l ->
  In (StoredTask.name task)
     (map TaskInfo.name (omap (fun r' => info_of <$> hp !! r') l)).
Proof.
  intros Hr. induction l as [|r' l IH]; intros Hin; [destruct Hin|]. csimpl.
  destruct Hin as [->|Hin].
  - rewrite Hr. csimpl. now left.
  - destruct (hp !! r'); csimpl; [right|]; auto.
Qed.

Lemma remove_first_info_unique name l :
  List.NoDup (map TaskInfo.name l) -> In name (map TaskInfo.name l) ->
  Forall (fun i => TaskInfo.name i <> name) (remove_first_info name l) /\
  S (length (remove_first_info name l)) = length l.
Proof.
  induction l as [|i l IH]; simpl; intros Hnd Hin; [destruct Hin|].
  inversion Hnd as [|? ? Hi Hl]; subst.
  destruct (String.eqb (TaskInfo.name i) name) eqn:E.
  - apply String.eqb_eq in E. subst name. split; [|reflexivity].
    apply List.Forall_forall. intros j Hj Hname. apply Hi.
    rewrite <- Hname. now apply in_map.
  - apply String.eqb_neq in E.
    destruct Hin as [Heq|Hin]; [congruence|].
    destruct (IH Hl Hin) as [H1 H2]. split; [constructor; auto|].
    simpl. now rewrite H2.
Qed.

End MaxRunsFacts.

(** X14. The run limit, for a callback that does not itself call
    [addTask] or [removeTask].  When the names of the listed tasks are all
    different, the execution of a registered task whose callback does not
    throw and whose run count reaches its [maxRuns] (set and not 0) with
    this run takes the task out: no task of that name is listed
    afterwards, and the listing is one entry shorter. *)
Theorem X14_task_leaves_when_it_reaches_maxRuns
    (d : Date) (r : ref) (st : State) (task : StoredTask.t) (m : Z) :
  heap st !! r = Some task -> In r (tasks st) ->
  List.NoDup (map TaskInfo.name (getTasks st)) ->
  throws (StoredTask.callBack task ()) = false ->
  StoredTask.maxRuns task = Some m -> m <> 0 ->
  StoredTask.countRuns task + 1 = m ->
  Forall (fun i => TaskInfo.name i <> StoredTask.name task)
    (getTasks (execute d r st)) /\
  S (length (getTasks (execute d r st))) = length (getTasks st).
Proof.
  intros Hr Hin Hnd Hthrow Hmax Hm Hcount.
  assert (Hreach : reached_maxRuns (StoredTask.ran d task) = true).
  { unfold reached_maxRuns.
    change (StoredTask.maxRuns (StoredTask.ran d task))
      with (StoredTask.maxRuns task).
    change (StoredTask.countRuns (StoredTask.ran d task))
      with (StoredTask.countRuns task + 1).
    rewrite Hmax. apply andb_true_iff. split.
    - apply negb_true_iff, Z.eqb_neq. exact Hm.
    - apply Z.eqb_eq. exact Hcount. }
  assert (Hh : heap (execute d r st) = <[r := StoredTask.ran d task]> (heap st)).
  { destruct (execute_heap d r st) as [E|(task0 & Ht & ->)].
    - exfalso. pose proof (proj1 (execute_counts d r st task Hr)) as H.
      rewrite E, Hr in H. injection H as H.
      apply (f_equal StoredTask.countRuns) in H. destruct task. cbn in H. lia.
    - rewrite Hr in Ht. now injection Ht as <-. }
  unfold getTasks at 1 2.
  rewrite (execute_tasks d r st task Hr), Hthrow, Hreach, Hh.
  cbn [negb andb]. rewrite listing_remove_first.
  pose proof (names_after_run (heap st) d r task (tasks st) Hr) as Hnames.
  destruct (remove_first_info_unique (StoredTask.name task)
              (omap (fun r' => info_of <$>
                       <[r := StoredTask.ran d task]> (heap st) !! r')
                    (tasks st))) as [H1 H2].
  - rewrite Hnames. exact Hnd.
  - rewrite Hnames. now apply (listed_name (heap st) r).
  - split; [exact H1|]. rewrite H2.
    rewrite <- (List.length_map TaskInfo.name), Hnames.
    apply List.length_map.
Qed.

Lemma X14_witness :
  let d := mkDate 2025 5 1 0 0 0 0 in
  let st :=
    snd (addTasks
           [ (d, Task.mk "twice" "0 0 1 6 0" (fun _ => Returns) None (Some 1));
             (d, Task.mk "other" "0 0 1 6 0" (fun _ => Returns) None None) ]
           initial) in
  Forall (fun i => TaskInfo.name i <> "twice") (getTasks (execute d 0%nat st)) /\
  S (length (getTasks (execute d 0%nat st))) = length (getTasks st).
Proof.
  intros d st.
  refine (X14_task_leaves_when_it_reaches_maxRuns d 0%nat st _ 1
            eq_refl _ _ eq_refl eq_refl _ eq_refl).
  - simpl. tauto.
  - vm_compute. repeat constructor; simpl; intuition discriminate.
  - discriminate.
Defined.

(** X15. For a callback that does not itself call [addTask] or
    [removeTask].  The execution of a task leaves the registry as it was
    when its callback throws, or its [maxRuns] is not set or is 0, or its
    run count after this run is not equal to its [maxRuns]; so the
    executions of a task whose count has passed its limit, as after a run
    that threw, remove nothing. *)
Theorem X15_execution_removes_at_the_limit_only
    (d : Date) (r : ref) (st : State) (task : StoredTask.t) :
  heap st !! r = Some task ->
  throws (StoredTask.callBack task ()) = true \/
  StoredTask.maxRuns task = None \/
  StoredTask.maxRuns task = Some 0 \/
  (exists m, StoredTask.maxRuns task = Some m /\
             StoredTask.countRuns task + 1 <> m) ->
  tasks (execute d r st) = tasks st /\
  length (getTasks (execute d r st)) = length (getTasks st).
Proof.
  intros Hr Hcase.
  assert (Ht : tasks (execute d r st) = tasks st).
  { rewrite (execute_tasks d r st task Hr).
    destruct Hcase as [->|Hcase]; [reflexivity|].
    replace (reached_maxRuns (StoredTask.ran d task)) with false;
      [now rewrite andb_false_r|].
    unfold reached_maxRuns.
    change (StoredTask.maxRuns (StoredTask.ran d task))
      with (StoredTask.maxRuns task).
    change (StoredTask.countRuns (StoredTask.ran d task))
      with (StoredTask.countRuns task + 1).
    destruct Hcase as [->|[->|(m & -> & Hne)]]; try reflexivity.
    symmetry. apply andb_false_iff. right. now apply Z.eqb_neq. }
  split; [exact Ht|].
  rewrite <- !(List.length_map TaskInfo.name). f_equal.
  unfold getTasks. rewrite Ht.
  destruct (execute_heap d r st) as [->|(task0 & Hr0 & ->)]; [reflexivity|].
  rewrite Hr in Hr0. injection Hr0 as <-. now apply names_after_run.
Qed.

Lemma X15_witness :
  let d := mkDate 2025 5 1 0 0 0 0 in
  let st :=
    snd (addTask d (Task.mk "job" "0 0 1 6 0" (fun _ => Returns)
                      None (Some 0)) initial) in
  tasks (execute d 0%nat st) = tasks st.
Proof.
  intros d st.
  refine (proj1 (X15_execution_removes_at_the_limit_only d 0%nat st _
                   eq_refl _)).
  right. right. left. reflexivity.
Defined.

(** ** Invariants of the runs of the module *)

Section RunInvariants.

Lemma compiled_fresh task exp t :
  compile task exp = Ok t ->
  StoredTask.countRuns t = 0 /\ StoredTask.lastRun t = None.
Proof.
  intros H. apply compile_Ok in H as (_ & mn & hr & dy & mo & wd & yr & H).
  destruct H as (_ & _ & _ & _ & _ & _ & ->). split; reflexivity.
Qed.

Lemma addTask_runner d task st :
  runner (snd (addTask d task st)) = runner st \/
  (runner st = None /\
   runner (snd (addTask d task st)) =
     Some (mkTimeout ((60 - getSeconds d) * 1000) false)).
Proof.
  unfold addTask. destruct (compile task _) as [t|e]; [|now left].
  cbn [snd runner push]. destruct (runner st) as [t0|] eqn:E.
  - left. cbn. exact E.
  - right. split; reflexivity.
Qed.

Lemma step_object st st' r t :
  step st st' -> heap st !! r = Some t ->
  exists t', heap st' !! r = Some t' /\
             StoredTask.countRuns t <= StoredTask.countRuns t' /\
             same_task t t'.
Proof.
  assert (Hsame : forall u, same_task u u) by (intros u; repeat split).
  intros Hstep Hr. destruct Hstep as [d task st|name st|d st|d r0 st].
  - exists t. split; [|split; [lia | apply Hsame]].
    destruct (addTask_heap d task st) as [->|(t0 & _ & ->)]; [assumption|].
    rewrite lookup_app_l; [assumption | eapply lookup_lt_Some; exact Hr].
  - exists t. rewrite removeTask_heap. split; [assumption|].
    split; [lia | apply Hsame].
  - exists t. rewrite tick_heap. split; [assumption|].
    split; [lia | apply Hsame].
  - destruct (Nat.eq_dec r r0) as [->|Hne].
    + exists (StoredTask.ran d t).
      split; [apply (execute_counts d r0 st t Hr)|].
      destruct t. cbn. split; [lia | repeat split].
    + exists t. rewrite execute_other by assumption.
      split; [assumption|]. split; [lia | apply Hsame].
Qed.

End RunInvariants.

(** X16. Run bookkeeping.  In every state the module can reach, the run
    count of every task object is a non-negative integer, and [lastRun] is
    [null] exactly when the count is 0: a task that has never run has no
    last run, and a task that has run has one. *)
Theorem X16_lastRun_is_null_until_the_first_run
    (st : State) (r : ref) (task : StoredTask.t) :
  reachable st -> heap st !! r = Some task ->
  0 <= StoredTask.countRuns task /\
  (StoredTask.lastRun task = None <-> StoredTask.countRuns task = 0).
Proof.
  intros Hst Hr.
  assert (H : Forall (fun t => 0 <= StoredTask.countRuns t /\
                               (StoredTask.lastRun t = None <->
                                StoredTask.countRuns t = 0)) (heap st)).
  { apply reachable_heap; [| |assumption].
    - intros tk exp t Ht. apply compiled_fresh in Ht as [-> ->].
      split; [lia | tauto].
    - intros d t [H0 _]. destruct t. cbn in *.
      split; [lia|]. split; [discriminate | lia]. }
  rewrite Forall_lookup in H. apply (H r task Hr).
Qed.

Lemma X16_witness :
  let d := mkDate 2025 5 1 0 0 0 0 in
  let st :=
    execute d 0%nat
      (snd (addTask d (Task.mk "job" "0 0 1 6 0" (fun _ => Throws "boom")
                         None None) initial)) in
  exists task, heap st !! 0%nat = Some task /\
               0 <= StoredTask.countRuns task /\
               (StoredTask.lastRun task = None <->
                StoredTask.countRuns task = 0).
Proof.
  intros d st. eexists. split; [reflexivity|].
  apply (X16_lastRun_is_null_until_the_first_run st 0%nat).
  - apply reach_execute, reach_addTask, reach_initial.
  - reflexivity.
Defined.

(** X17. The timer never stops by itself.  In every state the module can
    reach, once a task has been added the variable [runner] holds a
    timeout that has not been cancelled, whatever has been removed since,
    also when the registry is empty again; [runner] is [null] only while
    no task has ever been added. *)
Theorem X17_timer_stays_armed (st : State) :
  reachable st ->
  match runner st with
  | Some t => cleared t = false
  | None => heap st = [] /\ tasks st = []
  end.
Proof.
  induction 1 as [|d task st Hst IH|name st Hst IH|d st Hst IH|d r st Hst IH].
  - split; reflexivity.
  - unfold addTask. destruct (compile task _) as [t|e]; [|exact IH].
    cbn [snd]. change (runner (push t st)) with (runner st).
    destruct (runner st) as [t0|] eqn:E.
    + cbn [runner push]. rewrite E. exact IH.
    + reflexivity.
  - replace (runner (removeTask name st)) with (runner st)
      by (unfold removeTask; destruct (-1 <? _); reflexivity).
    rewrite removeTask_heap.
    destruct (runner st); [assumption|].
    destruct IH as [Hh Ht]. split; [assumption|].
    rewrite removeTask_tasks, Ht. reflexivity.
  - destruct (tick_effects d st) as (_ & _ & -> & _). reflexivity.
  - rewrite execute_runner. destruct (runner st); [assumption|].
    destruct IH as [Hh Ht]. rewrite execute_no_object by now rewrite Hh.
    auto.
Qed.

Lemma X17_witness :
  let d := mkDate 2025 5 1 0 0 0 0 in
  let st :=
    removeTask "job"
      (snd (addTask d (Task.mk "job" "0 0 1 6 0" (fun _ => Returns)
                         None None) initial)) in
  getTasks st = [] /\
  match runner st with
  | Some t => cleared t = false
  | None => heap st = [] /\ tasks st = []
  end.
Proof.
  intros d st. split; [reflexivity|].
  apply (X17_timer_stays_armed st).
  apply reach_removeTask, reach_addTask, reach_initial.
Defined.

(** X18. What never changes.  Over any sequence of operations of the
    module (calls of [addTask] and [removeTask], ticks, executions) a task
    object stays in the store, also after its removal from the registry;
    its run count never decreases; and its name, expression, callback,
    comment, [maxRuns] and compiled sets are those of its registration. *)
Theorem X18_run_count_never_decreases
    (st st' : State) (r : ref) (task : StoredTask.t) :
  steps st st' -> heap st !! r = Some task ->
  exists task',
    heap st' !! r = Some task' /\
    StoredTask.countRuns task <= StoredTask.countRuns task' /\
    same_task task task'.
Proof.
  intros Hsteps. revert task.
  induction Hsteps as [st|st st1 st' Hstep _ IH]; intros task Hr.
  - exists task. split; [assumption|]. split; [lia | repeat split].
  - destruct (step_object st st1 r task Hstep Hr) as (t1 & H1 & Hc1 & Hs1).
    destruct (IH t1 H1) as (t' & H' & Hc' & Hs').
    exists t'. split; [assumption|]. split; [lia|].
    unfold same_task in *.
    destruct Hs1 as (?&?&?&?&?&?&?&?&?&?&?).
    destruct Hs' as (?&?&?&?&?&?&?&?&?&?&?).
    repeat split; congruence.
Qed.

Lemma X18_witness :
  let d := mkDate 2025 5 1 0 0 0 0 in
  let st :=
    snd (addTask d (Task.mk "job" "0 0 1 6 0" (fun _ => Returns)
                      None (Some 1)) initial) in
  exists task',
    heap (execute d 0%nat (execute d 0%nat st)) !! 0%nat = Some task' /\
    0 <= StoredTask.countRuns task' /\
    StoredTask.expression task' = "0 0 1 6 0".
Proof.
  intros d st.
  destruct (X18_run_count_never_decreases st
              (execute d 0%nat (execute d 0%nat st)) 0%nat _
              (steps_more _ _ _ (step_execute d 0%nat st)
                 (steps_more _ _ _
                    (step_execute d 0%nat (execute d 0%nat st))
                    (steps_none _)))
              eq_refl)
    as (task' & H1 & H2 & H3).
  exists task'. split; [exact H1|]. split; [exact H2|].
  exact (proj1 (proj2 H3)).
Defined.

(** ** The fields of an expression *)

Section FieldsFacts.

Lemma collapse_head c s :
  Ascii.eqb c " " = false ->
  Js.collapse_spaces (String c s) = String c (Js.collapse_spaces s).
Proof. intros H. simpl. now rewrite H. Qed.

Lemma collapse_single_spaced s : single_spaced (Js.collapse_spaces s) = true.
Proof.
  induction s as [|c s IH]; [reflexivity|]. simpl.
  destruct (Ascii.eqb c " ") eqn:Ec.
  - destruct s as [|c' s']; [reflexivity|].
    destruct (Ascii.eqb c' " ") eqn:Ec'; [exact IH|].
    rewrite collapse_head in * by assumption.
    simpl. simpl in IH. rewrite Ec' in IH |- *. exact IH.
  - destruct (Js.collapse_spaces s) as [|c2 s2] eqn:E; [reflexivity|].
    simpl. simpl in IH. rewrite Ec. exact IH.
Qed.

Lemma single_spaced_tail c s :
  single_spaced (String c s) = true -> single_spaced s = true.
Proof.
  simpl. destruct s; [reflexivity|]. intros H.
  apply andb_true_iff in H as [_ H]. exact H.
Qed.

Lemma trimStart_spaced s :
  single_spaced s = true ->
  single_spaced (Js.trimStart s) = true /\
  starts_with_space (Js.trimStart s) = false.
Proof.
  induction s as [|c s IH]; intros H; [split; reflexivity|].
  simpl Js.trimStart. destruct (Js.is_white c) eqn:Ec.
  - apply IH. eapply single_spaced_tail. exact H.
  - split; [exact H|]. simpl.
    destruct (Ascii.eqb_spec c " ") as [->|]; [discriminate | reflexivity].
Qed.

Lemma trimEnd_cons c s :
  Js.trimEnd (String c s) =
  match Js.trimEnd s with
  | EmptyString => if Js.is_white c then EmptyString else String c EmptyString
  | String c2 t => String c (String c2 t)
  end.
Proof. simpl. destruct (Js.trimEnd s); reflexivity. Qed.

Lemma trimEnd_head s c t :
  Js.trimEnd s = String c t -> exists x, s = String c x.
Proof.
  destruct s as [|c0 s]; [discriminate|]. rewrite trimEnd_cons.
  destruct (Js.trimEnd s); [destruct (Js.is_white c0)|];
    intros [= <- _]; eauto.
Qed.

Lemma trimEnd_spaced s :
  single_spaced s = true ->
  single_spaced (Js.trimEnd s) = true /\
  (starts_with_space s = false -> starts_with_space (Js.trimEnd s) = false) /\
  ends_with_space (Js.trimEnd s) = false.
Proof.
  induction s as [|c s IH]; intros H; [repeat split|].
  rewrite trimEnd_cons.
  destruct (IH (single_spaced_tail c s H)) as (IH1 & _ & IH3).
  destruct (Js.trimEnd s) as [|c2 t] eqn:E.
  - destruct (Js.is_white c) eqn:Ec; [repeat split|].
    repeat split; auto. simpl.
    destruct (Ascii.eqb_spec c " ") as [->|]; [discriminate | reflexivity].
  - apply trimEnd_head in E as Hx. destruct Hx as [x ->].
    split; [|split; [auto | exact IH3]].
    simpl. simpl in H. apply andb_true_iff in H as [H _].
    rewrite H. exact IH1.
Qed.

Lemma split_cons sep c s :
  Js.split sep (String c s) =
  if Ascii.eqb c sep then "" :: Js.split sep s
  else match Js.split sep s with
       | p :: ps => String c p :: ps
       | [] => [String c ""]
       end.
Proof. reflexivity. Qed.

(** Between single spaces, and with no space at either end, every piece
    is a word. *)
Lemma split_words s :
  s <> "" -> single_spaced s = true -> ends_with_space s = false ->
  Forall (fun f => f <> "") (tail (Js.split " " s)) /\
  (starts_with_space s = false -> Forall (fun f => f <> "") (Js.split " " s)).
Proof.
  induction s as [|c s IH]; intros Hne Hs He; [congruence|].
  destruct s as [|c' s'].
  - simpl in He. simpl. rewrite He. split; [constructor|].
    intros _. repeat constructor. discriminate.
  - assert (Hs' : single_spaced (String c' s') = true)
      by (eapply single_spaced_tail; exact Hs).
    destruct (IH ltac:(discriminate) Hs' He) as [IHt IHa].
    rewrite (split_cons " " c (String c' s')).
    destruct (Ascii.eqb c " ") eqn:Ec.
    + assert (Hc' : starts_with_space (String c' s') = false).
      { simpl. simpl in Hs. rewrite Ec in Hs.
        destruct (Ascii.eqb c' " "); [discriminate | reflexivity]. }
      split; [exact (IHa Hc')|]. simpl. rewrite Ec. discriminate.
    + destruct (Js.split " " (String c' s')) as [|p ps] eqn:E.
      * exfalso. revert E. apply split_nonempty.
      * simpl in IHt. split; [exact IHt|].
        intros _. constructor; [discriminate | exact IHt].
Qed.

Lemma fields_spaced e :
  single_spaced (Js.trim (Js.collapse_spaces e)) = true /\
  starts_with_space (Js.trim (Js.collapse_spaces e)) = false /\
  ends_with_space (Js.trim (Js.collapse_spaces e)) = false.
Proof.
  unfold Js.trim.
  destruct (trimStart_spaced _ (collapse_single_spaced e)) as [H1 H2].
  destruct (trimEnd_spaced _ H1) as (H3 & H4 & H5). auto.
Qed.

End FieldsFacts.

Section BlankFacts.

Lemma space_is_white c : Ascii.eqb c " " = true -> Js.is_white c = true.
Proof. intros H. apply Ascii.eqb_eq in H. now subst c. Qed.

Lemma collapse_after_space c' x :
  Js.collapse_spaces (String " " (String c' x)) =
  if Ascii.eqb c' " " then Js.collapse_spaces (String c' x)
  else String " " (Js.collapse_spaces (String c' x)).
Proof. reflexivity. Qed.

Lemma collapse_blank s :
  Js.all_chars Js.is_white (Js.collapse_spaces s) =
  Js.all_chars Js.is_white s.
Proof.
  induction s as [|c s IH]; [reflexivity|].
  destruct (Ascii.eqb c " ") eqn:Ec.
  - apply Ascii.eqb_eq in Ec. subst c. destruct s as [|c' s']; [reflexivity|].
    rewrite collapse_after_space. destruct (Ascii.eqb c' " ") eqn:Ec'.
    + rewrite IH. reflexivity.
    + change (Js.all_chars Js.is_white (String " " ?x))
        with (Js.all_chars Js.is_white x). exact IH.
  - rewrite collapse_head by assumption. simpl. now rewrite IH.
Qed.

Lemma trimStart_blank s :
  Js.all_chars Js.is_white s = true -> Js.trimStart s = "".
Proof.
  induction s as [|c s IH]; [reflexivity|]. simpl.
  intros H. apply andb_true_iff in H as [Hc Hs]. now rewrite Hc, IH.
Qed.

Lemma trimStart_not_blank s :
  Js.all_chars Js.is_white s = false ->
  exists c x, Js.trimStart s = String c x /\ Js.is_white c = false.
Proof.
  induction s as [|c s IH]; [discriminate|]. simpl.
  destruct (Js.is_white c) eqn:Ec; [exact IH | eauto].
Qed.

(** A text trims to nothing exactly when it is blank. *)
Lemma trim_blank s : Js.trim s = "" <-> blank s = true.
Proof.
  unfold blank, Js.trim. split.
  - intros H. destruct (Js.all_chars Js.is_white s) eqn:E; [reflexivity|].
    apply trimStart_not_blank in E as (c & x & Ex & Hc).
    rewrite Ex, trimEnd_cons, Hc in H.
    destruct (Js.trimEnd x); discriminate.
  - intros H. now rewrite trimStart_blank.
Qed.

End BlankFacts.

(** X19. Redundant white space makes no empty field.  The fields that
    [addTask] gets from an expression never hold a space.  When the
    expression is blank (white space only, or empty) there is the one
    field [""], and only then; when it is not blank every field is a
    non-empty word, so the number of fields is the number of words between
    the spaces. *)
Theorem X19_fields_are_words (expression : string) :
  Forall (fun f => Js.has_char " " f = false) (fields expression) /\
  (fields expression = [""] <-> blank expression = true) /\
  (blank expression = false ->
   Forall (fun f => f <> "") (fields expression)).
Proof.
  assert (Hb : Js.trim (Js.collapse_spaces expression) = "" <->
               blank expression = true).
  { rewrite trim_blank. unfold blank. now rewrite collapse_blank. }
  assert (Hwords : blank expression = false ->
                   Forall (fun f => f <> "") (fields expression)).
  { intros Hnb. unfold fields.
    destruct (fields_spaced expression) as (H1 & H2 & H3).
    apply split_words; try assumption.
    intros E. apply Hb in E. congruence. }
  split; [apply split_pieces|]. split; [|exact Hwords].
  split.
  - intros E. destruct (blank expression) eqn:Eb; [reflexivity|].
    specialize (Hwords eq_refl). rewrite E in Hwords.
    inversion Hwords as [|? ? Hne _]. congruence.
  - intros Eb. unfold fields. now rewrite (proj2 Hb Eb).
Qed.

Lemma X19_witness :
  Forall (fun f => f <> "") (fields "  0   3 1 1 2 ") /\
  fields "   " = [""].
Proof.
  split.
  - apply (proj2 (proj2 (X19_fields_are_words "  0   3 1 1 2 "))).
    reflexivity.
  - apply (proj2 (proj1 (proj2 (X19_fields_are_words "   ")))).
    reflexivity.
Defined.

Section SpaceFacts.

(** Two continuations that start with a space and collapse to the same
    string collapse to the same string after any prefix. *)
Lemma collapse_prefix (a x y : string) :
  Js.collapse_spaces (String " " x) = Js.collapse_spaces (String " " y) ->
  Js.collapse_spaces (a +:+ String " " x) =
  Js.collapse_spaces (a +:+ String " " y).
Proof.
  intros Hxy. induction a as [|c a IH]; [exact Hxy|].
  rewrite (app_cons c a (String " " x)), (app_cons c a (String " " y)).
  destruct (Ascii.eqb c " ") eqn:Ec.
  - destruct a as [|c' a'].
    + rewrite !app_empty_l in *. simpl. rewrite Ec. simpl. exact IH.
    + rewrite (app_cons c' a' (String " " x)),
        (app_cons c' a' (String " " y)) in *.
      simpl in IH |- *. rewrite Ec.
      destruct (Ascii.eqb c' " "); [exact IH | now rewrite IH].
  - rewrite !collapse_head by assumption. now rewrite IH.
Qed.

Lemma collapse_double_space (a b : string) :
  Js.collapse_spaces (a +:+ "  " +:+ b) = Js.collapse_spaces (a +:+ " " +:+ b).
Proof.
  change ("  " +:+ b) with (String " " (String " " b)).
  change (" " +:+ b) with (String " " b).
  apply collapse_prefix. reflexivity.
Qed.

Lemma trimEnd_app_space s : Js.trimEnd (s +:+ " ") = Js.trimEnd s.
Proof.
  induction s as [|c s IH]; [reflexivity|].
  rewrite app_cons, !trimEnd_cons, IH. reflexivity.
Qed.

Lemma trim_app_space s : Js.trim (s +:+ " ") = Js.trim s.
Proof.
  unfold Js.trim. induction s as [|c s IH]; [reflexivity|].
  rewrite app_cons. simpl Js.trimStart. destruct (Js.is_white c).
  - exact IH.
  - rewrite <- app_cons. apply trimEnd_app_space.
Qed.

Lemma collapse_space_head c' x :
  Js.collapse_spaces (String " " (String c' x)) =
  if Ascii.eqb c' " " then Js.collapse_spaces (String c' x)
  else String " " (Js.collapse_spaces (String c' x)).
Proof. reflexivity. Qed.

Lemma collapse_app_space e :
  Js.collapse_spaces (e +:+ " ") = Js.collapse_spaces e +:+ " " \/
  Js.collapse_spaces (e +:+ " ") = Js.collapse_spaces e.
Proof.
  induction e as [|c e IH]; [left; reflexivity|].
  rewrite (app_cons c e " "). destruct (Ascii.eqb c " ") eqn:Ec.
  - apply Ascii.eqb_eq in Ec. subst c. destruct e as [|c' e'].
    + right. reflexivity.
    + rewrite (app_cons c' e' " ") in *. rewrite !collapse_space_head.
      destruct (Ascii.eqb c' " "); [exact IH|].
      destruct IH as [IH|IH]; rewrite IH; [left | right]; reflexivity.
  - rewrite !collapse_head by assumption.
    destruct IH as [IH|IH]; rewrite IH; [left | right]; reflexivity.
Qed.

End SpaceFacts.

(** X20. Redundant spaces do not change the fields: a space added next to
    a space of the expression, at its start or at its end gives the same
    fields, so the same compiled task or the same failure. *)
Theorem X20_fields_ignore_redundant_spaces (a b : string) :
  fields (a +:+ "  " +:+ b) = fields (a +:+ " " +:+ b) /\
  fields (" " +:+ a) = fields a /\
  fields (a +:+ " ") = fields a.
Proof.
  unfold fields. split; [|split].
  - now rewrite collapse_double_space.
  - f_equal. change (" " +:+ a) with (String " " a).
    destruct a as [|c a']; [reflexivity|].
    rewrite collapse_space_head.
    destruct (Ascii.eqb c " "); reflexivity.
  - f_equal. destruct (collapse_app_space a) as [-> | ->];
      [apply trim_app_space | reflexivity].
Qed.

(** ** The outcome of [addTask] *)

Section OutcomeFacts.

Lemma parse_Some f lo hi v :
  parseTimeExpression f lo hi = Ok v -> field_parses f (lo, hi).
Proof.
  intros H. destruct (parseTimeExpression_Ok _ _ _ _ H) as (l & -> & _).
  exists l. exact H.
Qed.

End OutcomeFacts.

(** X21. [addTask] succeeds exactly when the expression has five or six
    fields and every field parses in the domain of its position (minute
    0 .. 59, hour 0 .. 23, day 1 .. 31, month 1 .. 12, weekday 0 .. 6, year
    2020 .. 2099); nothing else counts, so a name that is already
    registered is accepted.  A call that throws leaves the whole state as
    it was; a call that succeeds appends one new task object to the
    registry, with no run recorded, writes nothing on the console, and
    arms the timer only if [runner] was [null]. *)
Theorem X21_addTask_outcome (d : Date) (task : Task.t) (st : State) :
  ((exists st', addTask d task st = (Ok (), st')) <->
   (5 <= length (fields (Task.expression task)) <= 6)%nat /\
   Forall2 field_parses (fields (Task.expression task))
     (take (length (fields (Task.expression task))) domains)) /\
  (forall e st', addTask d task st = (Throw e, st') -> st' = st) /\
  (forall st',
     addTask d task st = (Ok (), st') ->
     exists t,
       heap st' = heap st ++ [t] /\
       tasks st' = tasks st ++ [length (heap st)] /\
       console st' = console st /\
       runner st' =
         match runner st with
         | Some t0 => Some t0
         | None => Some (mkTimeout ((60 - getSeconds d) * 1000) false)
         end /\
       info_of t = info_new task /\
       StoredTask.callBack t = Task.callBack task).
Proof.
  split; [|split].
  - split.
    + intros [st' H]. apply addTask_Ok in H as (t & Hc & _).
      apply compile_Ok in Hc
        as (Hn & mn & hr & dy & mo & wd & yr & H0 & H1 & H2 & H3 & H4 & H5 & _).
      split; [exact Hn|].
      destruct (fields (Task.expression task))
        as [|f0 [|f1 [|f2 [|f3 [|f4 [|f5 [|f6 fs]]]]]]];
        simpl in Hn; try lia.
      * repeat constructor; eapply parse_Some; eassumption.
      * repeat constructor; eapply parse_Some; eassumption.
    + intros [Hn Hall]. unfold addTask, compile.
      destruct (fields (Task.expression task))
        as [|f0 [|f1 [|f2 [|f3 [|f4 [|f5 [|f6 fs]]]]]]];
        simpl in Hn; try lia.
      * simpl in Hall.
        inversion Hall as [|? ? ? ? [l0 P0] Hall1]; subst.
        inversion Hall1 as [|? ? ? ? [l1 P1] Hall2]; subst.
        inversion Hall2 as [|? ? ? ? [l2 P2] Hall3]; subst.
        inversion Hall3 as [|? ? ? ? [l3 P3] Hall4]; subst.
        inversion Hall4 as [|? ? ? ? [l4 P4] Hall5]; subst.
        cbn [fst snd] in *.
        change (default "" (Js.index [f0; f1; f2; f3; f4] 0)) with f0.
        change (default "" (Js.index [f0; f1; f2; f3; f4] 1)) with f1.
        change (default "" (Js.index [f0; f1; f2; f3; f4] 2)) with f2.
        change (default "" (Js.index [f0; f1; f2; f3; f4] 3)) with f3.
        change (default "" (Js.index [f0; f1; f2; f3; f4] 4)) with f4.
        rewrite P0, P1, P2, P3, P4. cbn. eauto.
      * simpl in Hall.
        inversion Hall as [|? ? ? ? [l0 P0] Hall1]; subst.
        inversion Hall1 as [|? ? ? ? [l1 P1] Hall2]; subst.
        inversion Hall2 as [|? ? ? ? [l2 P2] Hall3]; subst.
        inversion Hall3 as [|? ? ? ? [l3 P3] Hall4]; subst.
        inversion Hall4 as [|? ? ? ? [l4 P4] Hall5]; subst.
        inversion Hall5 as [|? ? ? ? [l5 P5] Hall6]; subst.
        cbn [fst snd] in *.
        change (default "" (Js.index [f0; f1; f2; f3; f4; f5] 0)) with f0.
        change (default "" (Js.index [f0; f1; f2; f3; f4; f5] 1)) with f1.
        change (default "" (Js.index [f0; f1; f2; f3; f4; f5] 2)) with f2.
        change (default "" (Js.index [f0; f1; f2; f3; f4; f5] 3)) with f3.
        change (default "" (Js.index [f0; f1; f2; f3; f4; f5] 4)) with f4.
        change (default "" (Js.index [f0; f1; f2; f3; f4; f5] 5)) with f5.
        rewrite P0, P1, P2, P3, P4. cbn. rewrite P5. cbn. eauto.
  - intros e st'. apply addTask_Throw.
  - intros st' H. unfold addTask in H.
    destruct (compile task _) as [t|e] eqn:E; [|discriminate].
    injection H as <-. exists t.
    assert (Hi : info_of t = info_new task /\
                 StoredTask.callBack t = Task.callBack task).
    { apply compile_Ok in E as (_ & mn & hr & dy & mo & wd & yr & H).
      destruct H as (_ & _ & _ & _ & _ & _ & ->). split; reflexivity. }
    change (runner (push t st)) with (runner st).
    destruct (runner st) as [t0|] eqn:Er.
    + cbn [heap tasks console runner push]. rewrite Er. tauto.
    + unfold start, stop. cbn [runner push]. rewrite Er.
      cbn [heap tasks console runner push set_runner]. tauto.
Qed.

Lemma X21_witness :
  let d := mkDate 2025 0 1 3 0 0 7 in
  let st :=
    snd (addTask d (Task.mk "job" "0 3 1 1 2" (fun _ => Returns) None None)
           initial) in
  exists st',
    addTask d (Task.mk "job" "5,10 4 1 1 2" (fun _ => Returns) None None) st
    = (Ok (), st').
Proof.
  intros d st.
  apply (proj1 (X21_addTask_outcome d
                  (Task.mk "job" "5,10 4 1 1 2" (fun _ => Returns) None None)
                  st)).
  split; [simpl; lia|].
  change (fields (Task.expression
                    (Task.mk "job" "5,10 4 1 1 2" (fun _ => Returns)
                       None None)))
    with ["5,10"; "4"; "1"; "1"; "2"].
  repeat constructor; eexists; reflexivity.
Defined.

Section ConsoleFacts.

Lemma removeTask_console name st : console (removeTask name st) = console st.
Proof. unfold removeTask. destruct (-1 <? _); reflexivity. Qed.

End ConsoleFacts.

(** X22. A failing callback is reported and nothing more: the execution of
    a task whose callback throws, or returns a promise that is rejected,
    appends to the console the line that names the task and the line of
    the error, in this order; the execution of any other callback writes
    nothing. *)
Theorem X22_execution_reports_a_failure
    (d : Date) (r : ref) (st : State) (task : StoredTask.t) :
  heap st !! r = Some task ->
  console (execute d r st) =
  console st ++
  match failure_of (StoredTask.callBack task ()) with
  | Some err =>
      [ LogError ("myCron: Error executing task " +:+
                  StoredTask.name task +:+ ":");
        LogError err ]
  | None => []
  end.
Proof.
  intros Hr. unfold execute. rewrite Hr.
  change (StoredTask.callBack (StoredTask.ran d task))
    with (StoredTask.callBack task).
  change (StoredTask.name (StoredTask.ran d task))
    with (StoredTask.name task).
  destruct (StoredTask.callBack task ()) as [|[err|]|err]; cbn [failure_of];
    repeat match goal with
    | |- context [if ?c then _ else _] => destruct c
    end;
    unfold log, failed; cbn [console store];
    rewrite ?removeTask_console; cbn [console store];
    rewrite ?app_nil_r; reflexivity.
Qed.

Lemma X22_witness :
  let d := mkDate 2025 5 1 0 0 0 0 in
  let st :=
    snd (addTask d (Task.mk "job" "0 0 1 6 0"
                      (fun _ => ReturnsPromise (Some "late")) None None)
           initial) in
  console (execute d 0%nat st) =
  [ LogError "myCron: Error executing task job:"; LogError "late" ].
Proof.
  intros d st.
  exact (X22_execution_reports_a_failure d 0%nat st _ eq_refl).
Defined.
